(** * Segmentation and chunking engine (scripts/5_segment_and_chunk.py)

    A shallow embedding of [preprocess_text], [split_into_sentences],
    [chunk_segments] and [segment_text_file], and the properties of the
    specification that concern them.

    Conventions of the embedding:
    - a Python [str] is a list of Unicode code points ([str := list N]);
      [len], slicing, [rfind], [strip] and [+] are list operations;
    - the tokenizer (tiktoken) and the sentence model (spaCy) are external:
      they are parameters of the development, and concrete instances are
      only used to evaluate the code on examples;
    - an exception raised by the tokenizer is an explicit [Raise] outcome,
      a loop that never exits is an explicit [Diverge] (fuel exhausted);
    - the file system is a finite map from paths to file contents. *)

From Equations Require Import Equations.
From Equations.Prop Require Import Logic.
From stdpp Require Import base option list gmap.
From Stdlib Require Import NArith Lia.
From Stdlib Require String Ascii DecimalNat.
Import String.StringSyntax.

Local Open Scope nat_scope.

(** ** Python strings *)

Module PyStr.

Abbreviation char := N.
Abbreviation str := (list N).

Definition SPACE : char := 32%N.
Definition NEWLINE : char := 10%N.
Definition BACKTICK : char := 96%N.

(** Literals: [lit "ab"] is the Python string ['ab']. *)
Definition lit (s : String.string) : str :=
  map Ascii.N_of_ascii (String.list_ascii_of_string s).
Arguments lit s%_string_scope.

(** [str.isspace] on one character: the code points Python treats as
    whitespace, which are the ones [str.strip()] removes. *)
Definition isspace (c : char) : bool :=
  ((9 <=? c) && (c <=? 13))%N || ((28 <=? c) && (c <=? 32))%N
  || (c =? 133)%N || (c =? 160)%N || (c =? 5760)%N
  || ((8192 <=? c) && (c <=? 8202))%N
  || (c =? 8232)%N || (c =? 8233)%N || (c =? 8239)%N || (c =? 8287)%N
  || (c =? 12288)%N.

Fixpoint lstrip (s : str) : str :=
  match s with
  | [] => []
  | c :: t => if isspace c then lstrip t else s
  end.

Definition rstrip (s : str) : str := rev (lstrip (rev s)).

(** [s.strip()] *)
Definition strip (s : str) : str := rstrip (lstrip s).

(** [s[a:b]] for indices [0 <= a], [0 <= b] (clipped to the length). *)
Definition slice (s : str) (a b : nat) : str := take (b - a) (drop a s).

(** [s.rfind(c)]: the highest index of [c], [None] for Python's [-1]. *)
Fixpoint rfind (c : char) (s : str) : option nat :=
  match s with
  | [] => None
  | x :: t =>
      match rfind c t with
      | Some i => Some (S i)
      | None => if (x =? c)%N then Some 0 else None
      end
  end.

(** Truth value of a string: [if s:] *)
Definition nonempty (s : str) : bool :=
  match s with [] => false | _ :: _ => true end.

(** [str(n)] for a non-negative integer. *)
Fixpoint digits (d : Decimal.uint) : str :=
  match d with
  | Decimal.Nil => []
  | Decimal.D0 d => 48%N :: digits d
  | Decimal.D1 d => 49%N :: digits d
  | Decimal.D2 d => 50%N :: digits d
  | Decimal.D3 d => 51%N :: digits d
  | Decimal.D4 d => 52%N :: digits d
  | Decimal.D5 d => 53%N :: digits d
  | Decimal.D6 d => 54%N :: digits d
  | Decimal.D7 d => 55%N :: digits d
  | Decimal.D8 d => 56%N :: digits d
  | Decimal.D9 d => 57%N :: digits d
  end.

Definition decimal (n : nat) : str := digits (Nat.to_uint n).

End PyStr.
Export PyStr.

(** ** Segment Preprocessor: [preprocess_text] *)

Module Preprocessor.

Inductive segment_type := Code | Text.

Abbreviation segment := (segment_type * list N)%type.

Definition starts_with_fence (s : str) : bool :=
  match s with
  | a :: b :: c :: _ => (a =? BACKTICK)%N && (b =? BACKTICK)%N && (c =? BACKTICK)%N
  | _ => false
  end.

(** Index of the first occurrence of the fence marker in [s]. *)
Fixpoint find_fence (s : str) : option nat :=
  match s with
  | [] => None
  | _ :: t => if starts_with_fence s then Some 0 else S <$> find_fence t
  end.

(** [code_pattern.search(text, pos)] for the pattern [```[\s\S]*?```]:
    the leftmost opening fence at or after [pos], then (the quantifier is
    lazy) the first closing fence that starts after the opening one. When
    the leftmost opening fence has no closing fence, no later start can
    match either, since its closing fence would also close the first. *)
Definition search_code (text : str) (pos : nat) : option (nat * nat) :=
  match find_fence (drop pos text) with
  | None => None
  | Some i =>
      let start := pos + i in
      match find_fence (drop (start + 3) text) with
      | None => None
      | Some j => Some (start, start + 3 + j + 3)
      end
  end.

(** [code_pattern.finditer(text)]: the successive non-overlapping matches,
    each search resuming where the previous match ended. A match is at
    least six characters long and ends inside the text, which is what
    makes the iteration finite. *)
Equations? finditer_from (text : str) (pos : nat) : list (nat * nat)
  by wf (length text - pos) lt :=
  finditer_from text pos with inspect (search_code text pos) := {
    | exist _ (Some (s, e)) H => (s, e) :: finditer_from text e
    | exist _ None _ => [] }.
Proof.
  assert (Hb : forall (t : str) i, find_fence t = Some i -> i + 3 <= length t).
  { clear. intros t. induction t as [|a t IH]; intros i; [discriminate|].
    cbn [find_fence]. destruct (starts_with_fence (a :: t)) eqn:E.
    - intros [= <-]. destruct t as [|b [|c t]]; simpl in *; try discriminate; lia.
    - destruct (find_fence t) as [k|]; simpl; [|discriminate].
      intros [= <-]. specialize (IH k eq_refl). lia. }
  unfold search_code in H.
  destruct (find_fence (drop pos text)) as [i|] eqn:Ei; [|discriminate].
  destruct (find_fence (drop (pos + i + 3) text)) as [j|] eqn:Ej; [|discriminate].
  injection H as <- <-.
  apply Hb in Ei, Ej. rewrite length_drop in Ei, Ej. lia.
Qed.

Definition finditer (text : str) : list (nat * nat) := finditer_from text 0.

(** The loop body of [preprocess_text], for one match [(start, end)]. *)
Definition preprocess_step (text : str) (acc : list segment * nat)
    (m : nat * nat) : list segment * nat :=
  let '(segments, last_idx) := acc in
  let segments :=
    if last_idx <? m.1 then segments ++ [(Text, slice text last_idx m.1)]
    else segments in
  (segments ++ [(Code, slice text m.1 m.2)], m.2).

Definition preprocess_text (text : str) : list segment :=
  let '(segments, last_idx) :=
    foldl (preprocess_step text) ([], 0) (finditer text) in
  if last_idx <? length text
  then segments ++ [(Text, slice text last_idx (length text))]
  else segments.

End Preprocessor.
Export Preprocessor.

(** ** Outcomes of a run *)

(** What one run of a loop of the program can end in: a value, an exception
    (carrying the text the tokenizer refused), or no end at all. *)
Inductive outcome (A : Type) : Type :=
| Ok (a : A)
| Raise (offending : str)
| Diverge.
Arguments Ok {A} a.
Arguments Raise {A} offending.
Arguments Diverge {A}.

Definition bind {A B} (m : outcome A) (k : A -> outcome B) : outcome B :=
  match m with
  | Ok a => k a
  | Raise e => Raise e
  | Diverge => Diverge
  end.

Notation "'let*' x := m 'in' k" := (bind m (fun x => k))
  (at level 10, x name, m at level 100, k at level 200).

(** ** Sentence Splitter: [split_into_sentences] *)

Module Splitter.

(** [max_length or 1000000] *)
Definition default_max_length : nat := N.to_nat 1000000.

Definition effective_max_length (max_length : option nat) : nat :=
  match max_length with
  | Some (S n) => S n
  | Some 0 | None => default_max_length
  end.

(** Lines 72-79: the end of the window that starts at [current_start], and
    the text of the window. *)
Definition window (text : str) (max_length current_start : nat) : nat * str :=
  let current_end := Nat.min (current_start + max_length) (length text) in
  let sub_text := slice text current_start current_end in
  if current_end <? length text then
    match rfind SPACE sub_text with
    | Some last_space =>
        let current_end := current_start + last_space in
        (current_end, slice text current_start current_end)
    | None => (current_end, sub_text)
    end
  else (current_end, sub_text).

Section Splitter.

(** The value of the global [nlp] when the function runs: [Some model]
    is the spaCy pipeline that [worker_init] binds to it, with [model t]
    for [[sent.text for sent in nlp(t).sents]]; [None] is the value that
    line 62 tests for, which the module itself never binds to the name.
    Before [worker_init] has run the name is unbound and line 62 raises
    [NameError]: that call is not described here. *)
Variable nlp : option (str -> list str).

(** The [while] loop of lines 71-85; [fuel] bounds the number of
    iterations, [None] means that the loop is still running after them. *)
Fixpoint split_loop (model : str -> list str) (fuel : nat) (text : str)
    (max_length current_start : nat) (sentences : list str)
    : option (list str) :=
  if current_start <? length text then
    match fuel with
    | 0 => None
    | S fuel' =>
        let '(current_end, sub_text) := window text max_length current_start in
        let sub_sentences := map strip (model sub_text) in
        split_loop model fuel' text max_length current_end
                   (sentences ++ sub_sentences)
    end
  else Some sentences.

Definition split_into_sentences (fuel : nat) (text : str)
    (max_length : option nat) : option (list str) :=
  match nlp with
  | None => Some []
  | Some model =>
      split_loop model fuel text (effective_max_length max_length) 0 []
  end.

End Splitter.

End Splitter.
Export Splitter.

(** ** Chunk Assembler: [chunk_segments] *)

Module Assembler.

Record chunk := { text : str; token_count : nat }.

Record state := {
  chunks : list chunk;
  current_chunk : str;
  current_tokens : nat;
  overlap_text : str
}.

Definition initial_state : state :=
  {| chunks := []; current_chunk := []; current_tokens := 0; overlap_text := [] |}.

(** The dictionary appended to [chunks] at a flush. *)
Definition emit (st : state) : chunk :=
  {| text := strip (current_chunk st); token_count := current_tokens st |}.

(** [encoded[-k:]] for [0 <= k <= len(encoded)]; note [encoded[-0:]] is the
    whole list. *)
Definition last_tokens (k : nat) (encoded : list N) : list N :=
  if k =? 0 then encoded else drop (length encoded - k) encoded.

Section Assembler.

(** [tokenizer.encode], [None] when it raises, and [tokenizer.decode]. *)
Variable encode : str -> option (list N).
Variable decode : list N -> str.
Variable nlp : option (str -> list str).
Variables max_tokens overlap_tokens : nat.

Definition tokenize (s : str) : outcome (list N) :=
  match encode s with
  | Some encoded => Ok encoded
  | None => Raise s
  end.

(** Lines 97-108: one verbatim segment. *)
Definition code_step (st : state) (segment : str) : outcome state :=
  let* encoded := tokenize segment in
  let segment_tokens := length encoded in
  let st :=
    if (max_tokens <? current_tokens st + segment_tokens)
       && nonempty (current_chunk st)
    then {| chunks := chunks st ++ [emit st];
            current_chunk := [];
            current_tokens := 0;
            overlap_text := overlap_text st |}
    else st in
  Ok {| chunks := chunks st;
        current_chunk := current_chunk st ++ [NEWLINE] ++ segment;
        current_tokens := current_tokens st + segment_tokens;
        overlap_text := overlap_text st |}.

(** Lines 115-120: the text carried over from the chunk being flushed. *)
Definition compute_overlap (current : str) : outcome str :=
  if 0 <? overlap_tokens then
    let* encoded_current := tokenize current in
    let overlap_tokens_actual :=
      Nat.min overlap_tokens (length encoded_current) in
    Ok (decode (last_tokens overlap_tokens_actual encoded_current))
  else Ok [].

(** Lines 112-129: one sentence. *)
Definition sentence_step (st : state) (sentence : str) : outcome state :=
  let* encoded := tokenize sentence in
  let sentence_tokens := length encoded in
  let* st :=
    if (max_tokens <? current_tokens st + sentence_tokens)
       && nonempty (current_chunk st)
    then
      let* overlap := compute_overlap (current_chunk st) in
      let* encoded_overlap := tokenize overlap in
      Ok {| chunks := chunks st ++ [emit st];
            current_chunk := overlap;
            current_tokens := length encoded_overlap;
            overlap_text := overlap |}
    else Ok st in
  Ok {| chunks := chunks st;
        current_chunk := current_chunk st ++ [SPACE] ++ sentence;
        current_tokens := current_tokens st + sentence_tokens;
        overlap_text := overlap_text st |}.

Fixpoint sentences_loop (st : state) (sentences : list str) : outcome state :=
  match sentences with
  | [] => Ok st
  | sentence :: rest =>
      let* st := sentence_step st sentence in
      sentences_loop st rest
  end.

Definition segment_step (fuel : nat) (st : state) (seg : segment)
    : outcome state :=
  match seg with
  | (Code, segment) => code_step st segment
  | (Text, segment) =>
      match split_into_sentences nlp fuel segment None with
      | Some sentences => sentences_loop st sentences
      | None => Diverge
      end
  end.

Fixpoint segments_loop (fuel : nat) (st : state) (segments : list segment)
    : outcome state :=
  match segments with
  | [] => Ok st
  | seg :: rest =>
      let* st := segment_step fuel st seg in
      segments_loop fuel st rest
  end.

(** Lines 131-137. *)
Definition finish (st : state) : list chunk :=
  if nonempty (strip (current_chunk st)) then chunks st ++ [emit st]
  else chunks st.

(** [fuel] bounds the iterations of each call of the sentence splitter. *)
Definition chunk_segments (fuel : nat) (segments : list segment)
    : outcome (list chunk) :=
  let* st := segments_loop fuel initial_state segments in
  Ok (finish st).

(** *** The unit stream *)

(** A unit is a verbatim segment ([Code]) or a sentence ([Text]). *)
Definition units_of_segment (fuel : nat) (seg : segment)
    : option (list (segment_type * str)) :=
  match seg with
  | (Code, segment) => Some [(Code, segment)]
  | (Text, segment) =>
      map (pair Text) <$> split_into_sentences nlp fuel segment None
  end.

Fixpoint units_of (fuel : nat) (segments : list segment)
    : option (list (segment_type * str)) :=
  match segments with
  | [] => Some []
  | seg :: rest =>
      match units_of_segment fuel seg, units_of fuel rest with
      | Some us, Some us' => Some (us ++ us')
      | _, _ => None
      end
  end.

Definition unit_step (st : state) (u : segment_type * str) : outcome state :=
  match u with
  | (Code, segment) => code_step st segment
  | (Text, sentence) => sentence_step st sentence
  end.

Fixpoint units_loop (st : state) (units : list (segment_type * str))
    : outcome state :=
  match units with
  | [] => Ok st
  | u :: rest =>
      let* st := unit_step st u in
      units_loop st rest
  end.

(** Token count of a text, 0 when the tokenizer refuses it. *)
Definition count (s : str) : nat :=
  match encode s with
  | Some encoded => length encoded
  | None => 0
  end.

End Assembler.

End Assembler.
Export Assembler.

(** ** Chunk Writer: [segment_text_file] *)

Module Writer.

(** The part of the file system the program touches: regular files with
    their contents, and directories. *)
Record filesystem := {
  files : gmap (list N) (list N);
  dirs : gset (list N)
}.

(** [os.path.exists] *)
Definition path_exists (fs : filesystem) (path : str) : bool :=
  bool_decide (is_Some (files fs !! path)) || bool_decide (path ∈ dirs fs).

(** The records the function sends to [logging]. *)
Inductive log_record :=
| CreatedDirectory (output_dir : str)
| StartingSegmentation (input_path : str)
| TotalChunks (n : nat) (input_path : str)
| ChunkExists (chunk_filename : str)
| CreatedChunk (chunk_filename : str) (tokens : nat)
| NoChunksWarning (input_path : str)
| FileNotFound (input_path : str)
| FailedToSegment (input_path : str).

(** [f"{base_filename}_chunk_{i+1}.txt"] *)
Definition chunk_filename (base_filename : str) (i : nat) : str :=
  base_filename ++ lit "_chunk_" ++ decimal (i + 1) ++ lit ".txt".

Section Writer.

Variable encode : str -> option (list N).
Variable decode : list N -> str.
Variable nlp : option (str -> list str).

(** [os.path.join], and [os.path.splitext(os.path.basename(p))[0]]. *)
Variable path_join : str -> str -> str.
Variable base_filename_of : str -> str.
(** Whether [open(path, 'w')] succeeds on a path that does not exist,
    and whether [os.makedirs(path)] does. *)
Variable writable : str -> bool.
Variable creatable : str -> bool.

(** Lines 160-170. The boolean tells whether the loop was left by an
    exception ([open] failed); the chunks before it stay written. *)
Fixpoint write_chunks (fs : filesystem) (log : list log_record)
    (output_dir base_filename : str) (i : nat) (chunks : list chunk)
    : filesystem * list log_record * bool :=
  match chunks with
  | [] => (fs, log, false)
  | chunk :: rest =>
      let name := chunk_filename base_filename i in
      let chunk_path := path_join output_dir name in
      if path_exists fs chunk_path then
        write_chunks fs (log ++ [ChunkExists name])
                     output_dir base_filename (S i) rest
      else if writable chunk_path then
        write_chunks {| files := <[chunk_path := text chunk]> (files fs);
                        dirs := dirs fs |}
                     (log ++ [CreatedChunk name (token_count chunk)])
                     output_dir base_filename (S i) rest
      else (fs, log, true)
  end.

(** Lines 147-176, once the output directory exists. [open] on a path
    that is neither a file nor a directory of [fs] is taken to raise
    [FileNotFoundError], on a directory another exception. *)
Definition segment_opened_file (fuel : nat) (fs : filesystem)
    (log : list log_record) (input_path output_dir : str)
    : option (filesystem * list log_record) :=
  match files fs !! input_path with
  | None =>
      if bool_decide (input_path ∈ dirs fs)
      then Some (fs, log ++ [FailedToSegment input_path])
      else Some (fs, log ++ [FileNotFound input_path])
  | Some text =>
      let log := log ++ [StartingSegmentation input_path] in
      let max_tokens := 3000 in
      let overlap_tokens := 200 in
      let segments := preprocess_text text in
      match chunk_segments encode decode nlp max_tokens overlap_tokens
                           fuel segments with
      | Diverge => None
      | Raise _ => Some (fs, log ++ [FailedToSegment input_path])
      | Ok chunks =>
          let log := log ++ [TotalChunks (length chunks) input_path] in
          let base_filename := base_filename_of input_path in
          let '(fs, log, raised) :=
            write_chunks fs log output_dir base_filename 0 chunks in
          if raised then Some (fs, log ++ [FailedToSegment input_path])
          else
            match chunks with
            | _ :: _ => Some (fs, log ++ [NoChunksWarning input_path])
            | [] => Some (fs, log)
            end
      end
  end.

(** Lines 139-181. The content of a file is its decoded text. Every
    exception is caught and logged. [None]: the call has not returned
    (the sentence splitter ran out of [fuel]).
    The log holds the records of [segment_text_file] itself, not the
    warning that [throttle_if_needed] may send before it sleeps. Of
    [os.makedirs] the creation of [output_dir] is described; the
    directories above it that the call creates on the way are not, and a
    failure of the call is recorded as a failed document whatever the
    exception is. *)
Definition segment_text_file (fuel : nat) (fs : filesystem)
    (input_path output_dir : str) : option (filesystem * list log_record) :=
  if path_exists fs output_dir then
    segment_opened_file fuel fs [] input_path output_dir
  else if creatable output_dir then
    segment_opened_file fuel
      {| files := files fs; dirs := {[output_dir]} ∪ dirs fs |}
      [CreatedDirectory output_dir] input_path output_dir
  else Some (fs, [FailedToSegment input_path]).

End Writer.

End Writer.
Export Writer.

(** ** Instances used to run the code on examples *)

Module Instances.

(** A tokenizer: one token per character, the token id is the code point. *)
Definition char_encode (s : str) : option (list N) := Some s.
Definition char_decode (ids : list N) : str := ids.

(** The same, but refusing any text that contains a vertical bar, the way
    tiktoken refuses a text that contains a special token. *)
Definition strict_encode (s : str) : option (list N) :=
  if existsb (N.eqb 124) s then None else Some s.

(** A sentence model: a sentence ends with a full stop and the whitespace
    that follows it. *)
Fixpoint period_sents_aux (after_stop : bool) (cur : str) (s : str) : list str :=
  match s with
  | [] => match cur with [] => [] | _ => [rev cur] end
  | c :: t =>
      if after_stop && negb (isspace c)
      then rev cur :: period_sents_aux (c =? 46)%N [c] t
      else period_sents_aux ((c =? 46)%N || after_stop) (c :: cur) t
  end.

Definition period_sents (s : str) : list str := period_sents_aux false [] s.

(** Paths: join with a slash; the base name is what follows the last slash,
    without what follows its last dot. *)
Definition slash_join (dir name : str) : str := dir ++ lit "/" ++ name.

Definition stem (path : str) : str :=
  let name :=
    match rfind 47%N path with
    | Some i => drop (S i) path
    | None => path
    end in
  match rfind 46%N name with
  | Some (S i) => take (S i) name
  | _ => name
  end.

(** A document with a verbatim block of 18 characters between two short
    sentences, and what the assembler makes of it with [max_tokens = 10]
    and [overlap_tokens = 5] under the character tokenizer. *)
Definition sample_document : str := lit "Hi. ```0123456789ab``` Yo.".

Definition sample_units : list (segment_type * str) :=
  [(Text, lit "Hi."); (Code, lit "```0123456789ab```"); (Text, lit "Yo.")].

Definition sample_chunks : list chunk :=
  [ {| text := lit "Hi."; token_count := 3 |};
    {| text := lit "```0123456789ab```"; token_count := 18 |};
    {| text := lit "ab``` Yo."; token_count := 8 |} ].

(** A file system that holds one document. *)
Definition sample_fs : filesystem :=
  {| files := {[ lit "in/doc.txt" := lit "One. Two.```x``` Three." ]};
     dirs := {[ lit "in" ]} |}.

(** A file system whose document has a verbatim block that
    [strict_encode] refuses. *)
Definition barred_fs : filesystem :=
  {| files := {[ lit "in/doc.txt" := lit "Fine. ```a|b``` End." ]};
     dirs := {[ lit "in" ]} |}.

End Instances.
Export Instances.

(** ** Notions used to state the properties *)

Module Spec.

(** Successive matches lie inside the text, in order, without overlap. *)
Fixpoint matches_ordered (n pos : nat) (ms : list (nat * nat)) : Prop :=
  match ms with
  | [] => True
  | (s, e) :: ms' => pos <= s /\ s < e /\ e <= n /\ matches_ordered n e ms'
  end.

(** A boundary [b] falls strictly inside a word when the characters on both
    of its sides exist and are not whitespace. *)
Definition inside_word (text : str) (b : nat) : bool :=
  match b with
  | 0 => false
  | S p =>
      match text !! p, text !! b with
      | Some x, Some y => negb (isspace x) && negb (isspace y)
      | _, _ => false
      end
  end.

(** The three ways a window can end. *)
Definition window_end_spec (text : str) (max_length current_start ce : nat) : Prop :=
  ce = length text
  \/ (text !! ce = Some SPACE /\ current_start <= ce < current_start + max_length
      /\ forall i, ce < i < current_start + max_length -> text !! i <> Some SPACE)
  \/ (ce = current_start + max_length
      /\ forall i, current_start <= i < current_start + max_length ->
                   text !! i <> Some SPACE).

(** What a unit adds to the chunk under construction. *)
Definition piece (u : segment_type * str) : str :=
  match u.1 with
  | Code => NEWLINE :: u.2
  | Text => SPACE :: u.2
  end.

(** The content of one chunk: the text carried over from the previous
    chunk with the token count recorded for it, and the units appended. *)
Record run := {
  carried : str;
  carried_tokens : nat;
  members : list (segment_type * str)
}.

Definition run_text (r : run) : str :=
  carried r ++ concat (map piece (members r)).

Section Runs.

Variable encode : str -> option (list N).
Variable max_tokens : nat.

Definition unit_tokens (u : segment_type * str) : nat := count encode u.2.

Definition run_tokens (r : run) : nat :=
  carried_tokens r + sum_list_with unit_tokens (members r).

Definition run_chunk (r : run) : chunk :=
  {| text := strip (run_text r); token_count := run_tokens r |}.

(** The chunks emitted for a sequence of runs: the last run is the one
    under construction when the stream ends, emitted unless blank. *)
Definition emitted (closed : list run) (last : run) : list chunk :=
  map run_chunk closed ++
  (if nonempty (strip (run_text last)) then [run_chunk last] else []).

Definition run_ok (r : run) : Prop :=
  ((carried r = [] /\ carried_tokens r = 0)
   \/ carried_tokens r = count encode (carried r))
  /\ Forall (fun u => unit_tokens u <= max_tokens) (tail (members r))
  /\ (run_tokens r <= max_tokens \/ length (members r) <= 1).

(** The test of lines 98-99 and 113-114. *)
Definition flushes (st : state) (tokens : nat) : bool :=
  (max_tokens <? current_tokens st + tokens) && nonempty (current_chunk st).

(** The state of the assembler between two units, read as runs. *)
Definition inv (st : state) (closed : list run) (cur : run) : Prop :=
  chunks st = map run_chunk closed
  /\ current_chunk st = run_text cur
  /\ current_tokens st = run_tokens cur
  /\ Forall run_ok closed /\ run_ok cur.

End Runs.

End Spec.
Export Spec.

(** ** Notions used to state further properties *)

Module Shapes.

(** The fence marker. *)
Definition fence : str := [BACKTICK; BACKTICK; BACKTICK].

(** The segments that [preprocess_text] builds from position [last_idx]
    on, given the matches still to come. *)
Fixpoint segments_from (text : str) (last_idx : nat) (ms : list (nat * nat))
    : list segment :=
  match ms with
  | [] =>
      if last_idx <? length text
      then [(Text, slice text last_idx (length text))]
      else []
  | (s, e) :: ms' =>
      (if last_idx <? s then [(Text, slice text last_idx s)] else [])
      ++ (Code, slice text s e) :: segments_from text e ms'
  end.

(** No two prose segments follow each other. *)
Fixpoint no_adjacent_text (segments : list segment) : Prop :=
  match segments with
  | (Text, _) :: (((Text, _) :: _) as rest) => False
  | _ :: rest => no_adjacent_text rest
  | [] => True
  end.

(** Whether a segment is verbatim. *)
Definition is_code (seg : segment) : bool :=
  match seg.1 with Code => true | Text => false end.

(** A run with one more unit. *)
Definition extend (r : run) (u : segment_type * str) : run :=
  {| carried := carried r; carried_tokens := carried_tokens r;
     members := members r ++ [u] |}.

Section Chains.

Variable encode : str -> option (list N).
Variable decode : list N -> str.
Variable overlap_tokens : nat.

(** How a run begins after the flush of the run before it: with nothing
    carried over when its first unit is a verbatim segment, with the
    overlap computed from the untrimmed text of the previous run when it
    is a sentence. *)
Definition starts_after (prev r : run) : Prop :=
  match members r with
  | (Code, _) :: _ => carried r = [] /\ carried_tokens r = 0
  | (Text, _) :: _ =>
      compute_overlap encode decode overlap_tokens (run_text prev)
      = Ok (carried r)
      /\ carried_tokens r = count encode (carried r)
  | [] => False
  end.

Fixpoint chained (prev : run) (rs : list run) : Prop :=
  match rs with
  | [] => True
  | r :: rs' => members prev <> [] /\ starts_after prev r /\ chained r rs'
  end.

(** The runs of a stream: the first carries nothing, each other one
    starts after the one before it. *)
Definition well_chained (rs : list run) : Prop :=
  match rs with
  | [] => False
  | r :: rs' => carried r = [] /\ carried_tokens r = 0 /\ chained r rs'
  end.

End Chains.

End Shapes.
Export Shapes.

(** * Properties *)

(** ** Segment Preprocessor *)

Example preprocess_text_ex :
  preprocess_text (lit "ab```c```d") =
  [(Text, lit "ab"); (Code, lit "```c```"); (Text, lit "d")].
Proof. reflexivity. Qed.

(** An opening fence without a closing one is prose. *)
Example preprocess_text_unterminated :
  preprocess_text (lit "ab```c") = [(Text, lit "ab```c")].
Proof. reflexivity. Qed.

Lemma find_fence_bound s i : find_fence s = Some i -> i + 3 <= length s.
Proof.
  revert i; induction s as [|a s IH]; intros i; [discriminate|].
  cbn [find_fence]. destruct (starts_with_fence (a :: s)) eqn:E.
  - intros [= <-]. destruct s as [|b [|c s]]; simpl in *; try discriminate; lia.
  - destruct (find_fence s) as [k|]; simpl; [|discriminate].
    intros [= <-]. specialize (IH k eq_refl). lia.
Qed.

Lemma search_code_bounds text pos s e :
  search_code text pos = Some (s, e) ->
  pos <= s /\ s + 6 <= e /\ e <= length text.
Proof.
  unfold search_code.
  destruct (find_fence (drop pos text)) as [i|] eqn:Ei; [|discriminate].
  destruct (find_fence (drop (pos + i + 3) text)) as [j|] eqn:Ej; [|discriminate].
  intros [= <- <-].
  apply find_fence_bound in Ei, Ej. rewrite length_drop in Ei, Ej. lia.
Qed.

Lemma finditer_from_step text pos :
  finditer_from text pos =
  match search_code text pos with
  | Some (s, e) => (s, e) :: finditer_from text e
  | None => []
  end.
Proof.
  simp finditer_from. unfold inspect.
  generalize (@eq_refl _ (search_code text pos)).
  generalize (search_code text pos) at 2 4 5.
  intros [[s e]|] E; simp finditer_from; reflexivity.
Qed.

Lemma finditer_from_ordered text pos :
  matches_ordered (length text) pos (finditer_from text pos).
Proof.
  remember (length text - pos) as k eqn:Hk.
  revert pos Hk. induction k as [k IH] using lt_wf_ind. intros pos ->.
  rewrite finditer_from_step.
  destruct (search_code text pos) as [[s e]|] eqn:E; [|exact I].
  apply search_code_bounds in E. simpl. repeat split; try lia.
  apply (IH (length text - e)); [lia | reflexivity].
Qed.

Lemma take_slice (t : str) a b : a <= b -> take a t ++ slice t a b = take b t.
Proof.
  intros Hab. unfold slice. rewrite take_take_drop. f_equal. lia.
Qed.

Lemma preprocess_fold_lossless text ms segs last :
  matches_ordered (length text) last ms ->
  concat (map snd segs) = take last text ->
  let r := foldl (preprocess_step text) (segs, last) ms in
  concat (map snd r.1) = take r.2 text /\ last <= r.2 /\
  (last <= length text -> r.2 <= length text).
Proof.
  revert segs last. induction ms as [|[s e] ms IH]; intros segs last Hwf Hsegs.
  - simpl. auto.
  - destruct Hwf as (Hs & Hse & He & Hwf).
    cbn [foldl preprocess_step fst snd].
    match goal with
    | |- context [foldl _ (?a, e) ms] => specialize (IH a e Hwf)
    end.
    cbn zeta in IH. destruct IH as (IH1 & IH2 & IH3).
    { destruct (Nat.ltb_spec last s) as [Hlt|Hge]; cbv iota.
      - rewrite !map_app, !concat_app, Hsegs. simpl. rewrite !app_nil_r.
        rewrite take_slice by lia. apply take_slice. lia.
      - replace last with s in Hsegs by lia.
        rewrite map_app, concat_app, Hsegs. simpl. rewrite app_nil_r.
        apply take_slice. lia. }
    cbn zeta. repeat split; [exact IH1 | lia | lia].
Qed.

(** C4. Losslessness: the texts of the segments returned by
    [preprocess_text], concatenated in the order returned, are exactly the
    input text; the segments partition the document without overlap. *)
Theorem preprocess_text_lossless (text : str) :
  concat (map snd (preprocess_text text)) = text.
Proof.
  unfold preprocess_text.
  pose proof (preprocess_fold_lossless text (finditer text) [] 0
                (finditer_from_ordered text 0) eq_refl) as H.
  simpl in H. destruct (foldl _ _ _) as [segments last_idx].
  simpl in H. destruct H as (Hc & _ & Hlen). specialize (Hlen (Nat.le_0_l _)).
  destruct (Nat.ltb_spec last_idx (length text)) as [Hlt|Hge].
  - rewrite map_app, concat_app, Hc. simpl. rewrite app_nil_r.
    rewrite take_slice by lia. apply firstn_all.
  - rewrite Hc. apply take_ge. lia.
Qed.

(** ** Sentence Splitter *)

Example split_into_sentences_ex :
  split_into_sentences (Some period_sents) 1 (lit "One. Two three. Four") None
  = Some [lit "One."; lit "Two three."; lit "Four"].
Proof. vm_compute. reflexivity. Qed.

Example split_windows_ex :
  split_into_sentences (Some (fun t => [t])) 5 (lit "ab cd efg") (Some 4)
  = Some [lit "ab"; lit "cd"; lit "efg"].
Proof. vm_compute. reflexivity. Qed.

Lemma rfind_None c (s : str) : rfind c s = None -> forall j, s !! j <> Some c.
Proof.
  induction s as [|x s IH]; intros E j; [destruct j; discriminate|].
  cbn [rfind] in E. destruct (rfind c s) eqn:E'; [discriminate|].
  destruct (N.eqb_spec x c) as [->|Hx]; [discriminate|].
  destruct j as [|j]; simpl; [congruence | apply IH; reflexivity].
Qed.

Lemma rfind_Some c (s : str) i :
  rfind c s = Some i ->
  s !! i = Some c /\ forall j, i < j -> s !! j <> Some c.
Proof.
  revert i. induction s as [|x s IH]; intros i; [discriminate|].
  cbn [rfind]. destruct (rfind c s) as [k|] eqn:E.
  - intros [= <-]. destruct (IH k eq_refl) as [H1 H2]. split; [exact H1|].
    intros [|j] Hj; [lia|]. simpl. apply H2. lia.
  - destruct (N.eqb_spec x c) as [->|Hne]; [|discriminate].
    intros [= <-]. split; [reflexivity|].
    intros [|j] Hj; [lia|]. simpl. by apply rfind_None.
Qed.

Lemma rfind_lt c (s : str) i : rfind c s = Some i -> i < length s.
Proof. intros H. apply rfind_Some in H as [H _]. by apply lookup_lt_Some in H. Qed.

Lemma lookup_slice (t : str) a b i :
  i < b - a -> slice t a b !! i = t !! (a + i).
Proof. intros Hi. unfold slice. rewrite lookup_take_lt by lia. apply lookup_drop. Qed.

Lemma length_slice (t : str) a b :
  b <= length t -> length (slice t a b) = b - a.
Proof. intros Hb. unfold slice. rewrite length_take, length_drop. lia. Qed.

(** C7 (as the code has it). The end of every window is the end of the
    text, or the position of the last space character (U+0020) among the
    [max_length] characters of the window, or, when these contain no space
    character, [current_start + max_length] wherever that falls; the text
    of the window is the slice between its start and its end. *)
Theorem window_boundary (text : str) (max_length current_start : nat) :
  current_start < length text ->
  window_end_spec text max_length current_start
                  (window text max_length current_start).1
  /\ (window text max_length current_start).2
     = slice text current_start (window text max_length current_start).1.
Proof.
  intros Hcs. unfold window, window_end_spec.
  set (ce := Nat.min (current_start + max_length) (length text)).
  destruct (Nat.ltb_spec ce (length text)) as [Hlt|Hge].
  - assert (Hce : ce = current_start + max_length) by lia.
    destruct (rfind SPACE (slice text current_start ce)) as [k|] eqn:E.
    + pose proof (rfind_lt _ _ _ E) as Hk.
      rewrite length_slice in Hk by lia.
      apply rfind_Some in E as [E1 E2]. rewrite lookup_slice in E1 by lia.
      simpl. split; [|reflexivity]. right; left. repeat split; try lia; [exact E1|].
      intros i Hi. specialize (E2 (i - current_start)).
      rewrite lookup_slice in E2 by lia.
      replace (current_start + (i - current_start)) with i in E2 by lia.
      apply E2. lia.
    + simpl. split; [|reflexivity]. right; right. split; [exact Hce|].
      intros i Hi. pose proof (rfind_None _ _ E (i - current_start)) as E2.
      rewrite lookup_slice in E2 by lia.
      by replace (current_start + (i - current_start)) with i in E2 by lia.
  - simpl. split; [|reflexivity]. left. lia.
Qed.

Lemma window_boundary_witness :
  0 < length (lit "ab cd efg")
  /\ window_end_spec (lit "ab cd efg") 4 0 (window (lit "ab cd efg") 4 0).1
  /\ (window (lit "ab cd efg") 4 0).2
     = slice (lit "ab cd efg") 0 (window (lit "ab cd efg") 4 0).1.
Proof.
  assert (H : 0 < length (lit "ab cd efg")) by (vm_compute; lia).
  split; [exact H|]. exact (window_boundary (lit "ab cd efg") 4 0 H).
Defined.

(** C7 as stated fails: a window that contains no space ends after
    [max_length] characters, in the middle of a word. *)
Lemma window_boundary_inside_word :
  ~ (forall (text : str) (max_length current_start : nat),
        0 < max_length -> max_length < length text ->
        current_start < length text ->
        inside_word text (window text max_length current_start).1 = false)
  /\ split_into_sentences (Some (fun t => [t])) 3 (lit "abcdefgh") (Some 3)
     = Some [lit "abc"; lit "def"; lit "gh"].
Proof.
  split; [|vm_compute; reflexivity].
  intros H. specialize (H (lit "abcdefgh") 3 0).
  vm_compute in H. discriminate H; lia.
Qed.

(** *** Progress of the window loop *)

(** A window whose end is its own start never lets the loop advance. *)
Lemma split_loop_stuck model text max_length current_start :
  current_start < length text ->
  (window text max_length current_start).1 = current_start ->
  forall fuel sentences,
    split_loop model fuel text max_length current_start sentences = None.
Proof.
  intros Hlt Hw fuel. induction fuel as [|fuel IH]; intros sentences; simpl.
  - apply Nat.ltb_lt in Hlt. by rewrite Hlt.
  - apply Nat.ltb_lt in Hlt. rewrite Hlt.
    destruct (window text max_length current_start) as [ce sub] eqn:E.
    simpl in Hw. subst ce. apply IH.
Qed.

(** When the window starts on a space and holds no other space, and the
    text goes on after it, the window ends where it starts. *)
Lemma window_no_progress text max_length current_start :
  current_start + max_length < length text ->
  rfind SPACE (slice text current_start (current_start + max_length)) = Some 0 ->
  (window text max_length current_start).1 = current_start.
Proof.
  intros Hlen Hr. unfold window.
  rewrite Nat.min_l by lia.
  apply Nat.ltb_lt in Hlen. rewrite Hlen, Hr. simpl. lia.
Qed.

(** C8 fails on the code: on [" aaaa"] with [max_length = 3] the first
    window is [" aa"], its only space is at position 0, the window is cut
    back to the empty string and [current_start] stays 0: whatever the
    number of iterations allowed, the loop has not returned. *)
Theorem split_into_sentences_no_progress :
  (window (lit " aaaa") 3 0).1 = 0
  /\ forall model fuel,
       split_into_sentences (Some model) fuel (lit " aaaa") (Some 3) = None.
Proof.
  split; [vm_compute; reflexivity|].
  intros model fuel. unfold split_into_sentences, effective_max_length.
  apply split_loop_stuck; [vm_compute; lia | vm_compute; reflexivity].
Qed.

(** The same happens after the loop's own back-off, which leaves the next
    window starting on the space it stopped at. *)
Lemma split_loop_stuck_after_backoff model fuel :
  split_into_sentences (Some model) fuel (lit "ab cdefgh") (Some 4) = None.
Proof.
  unfold split_into_sentences, effective_max_length.
  destruct fuel as [|fuel]; [reflexivity|].
  cbn [split_loop]. change (0 <? length (lit "ab cdefgh")) with true. cbv iota.
  change (window (lit "ab cdefgh") 4 0) with (2, lit "ab"). cbv iota beta.
  apply split_loop_stuck; [vm_compute; lia | vm_compute; reflexivity].
Qed.

(** A text that fits in one window is split in one iteration. *)
Lemma split_loop_single_window model fuel text max_length :
  length text <= max_length ->
  split_loop model (S fuel) text max_length 0 [] =
  Some (if nonempty text then map strip (model text) else []).
Proof.
  intros Hlen. cbn [split_loop].
  destruct text as [|c t]; [reflexivity|].
  change (0 <? length (c :: t)) with true. cbv iota.
  assert (Hw : window (c :: t) max_length 0 = (length (c :: t), c :: t)).
  { unfold window. rewrite Nat.min_r by lia. rewrite Nat.ltb_irrefl.
    unfold slice. rewrite drop_0, Nat.sub_0_r. by rewrite firstn_all. }
  rewrite Hw. destruct fuel; simpl; by rewrite Nat.ltb_irrefl.
Qed.


(** ** Whitespace trimming *)

Lemma lstrip_app_nonspace (a : str) x (t : str) :
  isspace x = false -> lstrip (a ++ x :: t) = lstrip a ++ x :: t.
Proof.
  intros Hx. induction a as [|c a IH]; simpl.
  - by rewrite Hx.
  - destruct (isspace c); [exact IH | reflexivity].
Qed.

Lemma rstrip_app_nonspace (t : str) x (b : str) :
  isspace x = false -> rstrip (t ++ x :: b) = t ++ x :: rstrip b.
Proof.
  intros Hx. unfold rstrip.
  rewrite rev_app_distr. simpl. rewrite <- app_assoc. simpl.
  rewrite lstrip_app_nonspace by exact Hx.
  rewrite rev_app_distr. simpl. rewrite rev_involutive, <- app_assoc. reflexivity.
Qed.

Lemma lstrip_length (s : str) : length (lstrip s) <= length s.
Proof. induction s as [|c s IH]; simpl; [lia|]. destruct (isspace c); simpl; lia. Qed.

Lemma rstrip_length (s : str) : length (rstrip s) <= length s.
Proof.
  unfold rstrip. rewrite length_rev.
  etransitivity; [apply lstrip_length|]. by rewrite length_rev.
Qed.

Lemma lstrip_fixed_head (x : char) (t : str) :
  lstrip (x :: t) = x :: t -> isspace x = false.
Proof.
  simpl. destruct (isspace x); [|reflexivity].
  intros H. pose proof (lstrip_length t) as Hl. rewrite H in Hl. simpl in Hl. lia.
Qed.

Lemma strip_fixed (u : str) :
  strip u = u -> lstrip u = u /\ rstrip u = u.
Proof.
  intros H. unfold strip in H.
  assert (Hl : lstrip u = u).
  { pose proof (rstrip_length (lstrip u)) as H1. rewrite H in H1.
    clear H. induction u as [|c u IH]; [reflexivity|].
    simpl in *. destruct (isspace c); [|reflexivity].
    pose proof (lstrip_length u). lia. }
  split; [exact Hl|]. by rewrite Hl in H.
Qed.

(** Trimming a text leaves whole any part of it that is itself trimmed. *)
Lemma strip_keeps (a u b : str) :
  u <> [] -> strip u = u ->
  exists a' b', strip (a ++ u ++ b) = a' ++ u ++ b'.
Proof.
  intros Hne Hu. apply strip_fixed in Hu as [Hl Hr].
  destruct u as [|x t]; [done|].
  pose proof (lstrip_fixed_head _ _ Hl) as Hx.
  destruct (rev (x :: t)) as [|y t'] eqn:Erev.
  { apply (f_equal (@length _)) in Erev. rewrite length_rev in Erev. discriminate. }
  assert (Hy : isspace y = false).
  { apply (lstrip_fixed_head y t'). unfold rstrip in Hr. rewrite Erev in Hr.
    apply (f_equal (@rev _)) in Hr. rewrite rev_involutive, Erev in Hr. exact Hr. }
  assert (Hu : x :: t = rev t' ++ [y]).
  { rewrite <- (rev_involutive (x :: t)), Erev. reflexivity. }
  exists (lstrip a), (rstrip b). unfold strip.
  change (a ++ (x :: t) ++ b) with (a ++ x :: (t ++ b)).
  rewrite lstrip_app_nonspace by exact Hx.
  change (lstrip a ++ x :: t ++ b) with (lstrip a ++ (x :: t) ++ b).
  rewrite Hu, <- !app_assoc. simpl.
  rewrite (app_assoc (lstrip a) (rev t') (y :: b)).
  rewrite rstrip_app_nonspace by exact Hy.
  by rewrite <- app_assoc.
Qed.

(** ** The units of the pipeline have no whitespace at their ends *)

Lemma lstrip_idem (s : str) : lstrip (lstrip s) = lstrip s.
Proof.
  induction s as [|c s IH]; [reflexivity|]. simpl.
  destruct (isspace c) eqn:E; [exact IH|]. simpl. by rewrite E.
Qed.

Lemma rstrip_idem (s : str) : rstrip (rstrip s) = rstrip s.
Proof. unfold rstrip. by rewrite rev_involutive, lstrip_idem. Qed.

Lemma strip_idem (s : str) : strip (strip s) = strip s.
Proof.
  unfold strip. destruct (lstrip s) as [|c t] eqn:E.
  - reflexivity.
  - assert (Hc : isspace c = false).
    { apply (lstrip_fixed_head c t). by rewrite <- E, lstrip_idem. }
    pose proof (rstrip_app_nonspace [] c t Hc) as Hr. simpl in Hr.
    rewrite Hr. simpl. rewrite Hc.
    pose proof (rstrip_app_nonspace [] c (rstrip t) Hc) as Hr'. simpl in Hr'.
    by rewrite Hr', rstrip_idem.
Qed.

Lemma strip_fixed_by_ends (x y : char) (mid : str) :
  isspace x = false -> isspace y = false ->
  strip (x :: mid ++ [y]) = x :: mid ++ [y].
Proof.
  intros Hx Hy. unfold strip. simpl. rewrite Hx.
  change (x :: mid ++ [y]) with ((x :: mid) ++ y :: []).
  by rewrite rstrip_app_nonspace.
Qed.

Lemma find_fence_backticks (s : str) i :
  find_fence s = Some i ->
  s !! i = Some BACKTICK /\ s !! (i + 2) = Some BACKTICK.
Proof.
  revert i. induction s as [|a s IH]; intros i; [discriminate|].
  cbn [find_fence]. destruct (starts_with_fence (a :: s)) eqn:E.
  - intros [= <-]. destruct s as [|b [|c s]]; simpl in E; try discriminate.
    apply andb_true_iff in E as [E Ec]. apply andb_true_iff in E as [Ea Eb].
    apply N.eqb_eq in Ea, Ec. by subst.
  - destruct (find_fence s) as [k|]; simpl; [|discriminate].
    intros [= <-]. by apply IH.
Qed.

(** A match of the pattern starts and ends with a backtick. *)
Lemma search_code_trimmed text pos s e :
  search_code text pos = Some (s, e) ->
  strip (slice text s e) = slice text s e.
Proof.
  intros H. pose proof (search_code_bounds _ _ _ _ H) as (Hs & Hse & He).
  unfold search_code in H.
  destruct (find_fence (drop pos text)) as [i|] eqn:Ei; [|discriminate].
  destruct (find_fence (drop (pos + i + 3) text)) as [j|] eqn:Ej; [|discriminate].
  injection H as <- <-.
  apply find_fence_backticks in Ei as [E0 _], Ej as [_ E1].
  rewrite lookup_drop in E0, E1.
  set (s := pos + i) in *. set (e := s + 3 + j + 3) in *.
  assert (H0 : slice text s e !! 0 = Some BACKTICK).
  { rewrite lookup_slice by lia. by rewrite Nat.add_0_r. }
  assert (H1 : slice text s e !! (e - s - 1) = Some BACKTICK).
  { rewrite lookup_slice by lia. rewrite <- E1. f_equal. lia. }
  pose proof (length_slice text s e He) as Hlen.
  destruct (slice text s e) as [|x u] eqn:Eu; [discriminate|].
  injection H0 as ->.
  destruct (rev u) as [|y m] eqn:Er.
  { apply (f_equal (@length _)) in Er. rewrite length_rev in Er.
    simpl in *. lia. }
  assert (Hu : u = rev m ++ [y]).
  { rewrite <- (rev_involutive u), Er. reflexivity. }
  subst u. rewrite length_cons, length_app, length_rev in Hlen. simpl in Hlen.
  replace (e - s - 1) with (S (length (rev m))) in H1
    by (rewrite length_rev; lia).
  simpl in H1. rewrite lookup_app_r in H1 by lia.
  rewrite Nat.sub_diag in H1. injection H1 as ->.
  by apply strip_fixed_by_ends.
Qed.

Lemma finditer_from_trimmed text pos :
  Forall (fun m => strip (slice text m.1 m.2) = slice text m.1 m.2)
         (finditer_from text pos).
Proof.
  remember (length text - pos) as k eqn:Hk.
  revert pos Hk. induction k as [k IH] using lt_wf_ind. intros pos ->.
  rewrite finditer_from_step.
  destruct (search_code text pos) as [[s e]|] eqn:E; [|constructor].
  constructor; [by eapply search_code_trimmed|].
  apply search_code_bounds in E.
  apply (IH (length text - e)); [lia | reflexivity].
Qed.

Lemma preprocess_text_code_trimmed text :
  Forall (fun seg => seg.1 = Code -> strip seg.2 = seg.2) (preprocess_text text).
Proof.
  unfold preprocess_text.
  assert (Hfold : forall ms segs last,
             Forall (fun m => strip (slice text m.1 m.2) = slice text m.1 m.2) ms ->
             Forall (fun seg : segment => seg.1 = Code -> strip seg.2 = seg.2) segs ->
             Forall (fun seg : segment => seg.1 = Code -> strip seg.2 = seg.2)
                    (foldl (preprocess_step text) (segs, last) ms).1).
  { induction ms as [|[s e] ms IH]; intros segs last Hms Hsegs; [exact Hsegs|].
    apply Forall_cons in Hms as [Hm Hms]. cbn [foldl preprocess_step fst snd].
    apply IH; [exact Hms|].
    apply Forall_app. split; [|by constructor].
    destruct (last <? s); [|exact Hsegs].
    apply Forall_app. split; [exact Hsegs|]. by constructor. }
  specialize (Hfold (finditer text) [] 0 (finditer_from_trimmed text 0)
                    (Forall_nil_2 _)).
  destruct (foldl _ _ _) as [segments last_idx]. simpl in Hfold.
  destruct (last_idx <? length text); [|exact Hfold].
  apply Forall_app. split; [exact Hfold|]. by constructor.
Qed.

Lemma split_loop_trimmed model fuel text max_length : forall start acc sentences,
  Forall (fun s => strip s = s) acc ->
  split_loop model fuel text max_length start acc = Some sentences ->
  Forall (fun s => strip s = s) sentences.
Proof.
  induction fuel as [|fuel IH]; intros start acc sentences Hacc; simpl.
  - destruct (start <? length text); [discriminate|]. by intros [= <-].
  - destruct (start <? length text); [|by intros [= <-]].
    destruct (window text max_length start) as [ce sub]. apply IH.
    apply Forall_app. split; [exact Hacc|].
    apply Forall_forall. intros s Hs. apply list_elem_of_fmap in Hs as (t & -> & _).
    apply strip_idem.
Qed.

(** Every unit that the pipeline hands to the assembler is trimmed: a
    verbatim segment starts and ends with a backtick, a sentence has been
    stripped by the splitter. *)
Lemma pipeline_units_trimmed nlp fuel body units :
  units_of nlp fuel (preprocess_text body) = Some units ->
  Forall (fun u => strip u.2 = u.2) units.
Proof.
  pose proof (preprocess_text_code_trimmed body) as Hsegs.
  revert units. induction (preprocess_text body) as [|[k seg] rest IH]; intros units.
  - by intros [= <-].
  - apply Forall_cons in Hsegs as [Hseg Hrest]. cbn [units_of].
    destruct (units_of_segment nlp fuel (k, seg)) as [us|] eqn:Eu; [|discriminate].
    destruct (units_of nlp fuel rest) as [us'|]; [|discriminate].
    intros [= <-]. apply Forall_app. split; [|by apply IH].
    destruct k; simpl in Eu.
    + injection Eu as <-. constructor; [by apply Hseg|constructor].
    + unfold split_into_sentences in Eu. destruct nlp as [model|].
      * destruct (split_loop _ _ _ _ _ _) as [sentences|] eqn:Es; [|discriminate].
        injection Eu as <-. apply split_loop_trimmed in Es; [|constructor].
        apply Forall_fmap. exact Es.
      * injection Eu as <-. constructor.
Qed.

(** The splitter returns on every segment that fits in one window, so the
    unit stream of such a document is defined. *)
Lemma units_of_returns nlp fuel (segments : list segment) :
  Forall (fun seg : segment => length seg.2 <= default_max_length) segments ->
  exists units, units_of nlp (S fuel) segments = Some units.
Proof.
  induction segments as [|[k seg] rest IH]; intros H; [by exists []|].
  apply Forall_cons in H as [H1 H2]. destruct (IH H2) as [us' Hus'].
  cbn [units_of]. rewrite Hus'. destruct k; [simpl; eauto|].
  cbn [units_of_segment]. unfold split_into_sentences.
  destruct nlp as [model|]; [|simpl; eauto].
  change (effective_max_length None) with default_max_length.
  rewrite split_loop_single_window by exact H1. simpl. eauto.
Qed.

(** ** Chunk Assembler *)

Example chunk_segments_ex :
  chunk_segments char_encode char_decode (Some period_sents) 20 4 1
    (preprocess_text (lit "Sentence one. Two.```code``` Three."))
  = Ok [ {| text := lit "Sentence one. Two."; token_count := 17 |};
         {| text := lit "```code``` Three."; token_count := 16 |} ].
Proof. vm_compute. reflexivity. Qed.

Lemma bind_Ok {A B} (m : outcome A) (k : A -> outcome B) b :
  bind m k = Ok b -> exists a, m = Ok a /\ k a = Ok b.
Proof. destruct m; simpl; intros H; try discriminate; eauto. Qed.

Ltac inv_bind H :=
  let x := fresh "x" in
  let Hx := fresh "Hx" in
  apply bind_Ok in H as (x & Hx & H).

Section AssemblerFacts.

Context (encode : str -> option (list N)) (decode : list N -> str).
Context (nlp : option (str -> list str)).
Context (max_tokens overlap_tokens : nat).

Local Abbreviation tokenize := (tokenize encode).
Local Abbreviation count := (count encode).
Local Abbreviation code_step := (code_step encode max_tokens).
Local Abbreviation compute_overlap := (compute_overlap encode decode overlap_tokens).
Local Abbreviation sentence_step :=
  (sentence_step encode decode max_tokens overlap_tokens).
Local Abbreviation unit_step :=
  (unit_step encode decode max_tokens overlap_tokens).
Local Abbreviation units_loop :=
  (units_loop encode decode max_tokens overlap_tokens).
Local Abbreviation sentences_loop :=
  (sentences_loop encode decode max_tokens overlap_tokens).
Local Abbreviation segments_loop :=
  (segments_loop encode decode nlp max_tokens overlap_tokens).
Local Abbreviation chunk_segments :=
  (chunk_segments encode decode nlp max_tokens overlap_tokens).
Local Abbreviation units_of := (units_of nlp).
Local Abbreviation flushes := (flushes max_tokens).
Local Abbreviation unit_tokens := (unit_tokens encode).
Local Abbreviation run_tokens := (run_tokens encode).
Local Abbreviation run_chunk := (run_chunk encode).
Local Abbreviation run_ok := (run_ok encode max_tokens).
Local Abbreviation emitted := (emitted encode).
Local Abbreviation inv := (inv encode max_tokens).

Lemma tokenize_Ok s encoded :
  tokenize s = Ok encoded -> encode s = Some encoded /\ count s = length encoded.
Proof.
  unfold Assembler.tokenize, Assembler.count.
  destruct (encode s); intros [= <-]. auto.
Qed.

(** The nested loops of [chunk_segments] are one loop over the units. *)
Lemma units_loop_app st us us' :
  units_loop st (us ++ us') =
  let* st' := units_loop st us in units_loop st' us'.
Proof.
  revert st. induction us as [|u us IH]; intros st; [reflexivity|].
  simpl. destruct (unit_step st u); simpl; auto.
Qed.

Lemma sentences_loop_units st sentences :
  sentences_loop st sentences = units_loop st (map (pair Text) sentences).
Proof.
  revert st. induction sentences as [|s ss IH]; intros st; [reflexivity|].
  simpl. destruct (sentence_step st s); simpl; auto.
Qed.

Lemma segments_loop_units fuel st segments units :
  units_of fuel segments = Some units ->
  segments_loop fuel st segments = units_loop st units.
Proof.
  revert st units. induction segments as [|[k seg] rest IH]; intros st units.
  - intros [= <-]. reflexivity.
  - cbn [Assembler.units_of Assembler.segments_loop].
    destruct (units_of_segment nlp fuel (k, seg)) as [us|] eqn:Eu; [|discriminate].
    destruct (units_of fuel rest) as [us'|] eqn:Er; [|discriminate].
    intros [= <-]. rewrite units_loop_app.
    assert (Hs : segment_step encode decode nlp max_tokens overlap_tokens
                   fuel st (k, seg) = units_loop st us).
    { destruct k; simpl in *.
      - injection Eu as <-. simpl. by destruct (code_step st seg).
      - destruct (split_into_sentences nlp fuel seg None); [|discriminate].
        injection Eu as <-. apply sentences_loop_units. }
    rewrite Hs. destruct (units_loop st us); simpl; auto.
Qed.


(** *** What one step does *)

Lemma code_step_Ok st segment st' :
  code_step st segment = Ok st' ->
  exists encoded, encode segment = Some encoded /\
    st' = if flushes st (length encoded)
          then {| chunks := chunks st ++ [emit st];
                  current_chunk := [] ++ [NEWLINE] ++ segment;
                  current_tokens := 0 + length encoded;
                  overlap_text := overlap_text st |}
          else {| chunks := chunks st;
                  current_chunk := current_chunk st ++ [NEWLINE] ++ segment;
                  current_tokens := current_tokens st + length encoded;
                  overlap_text := overlap_text st |}.
Proof.
  unfold Assembler.code_step, Spec.flushes. intros H. inv_bind H.
  apply tokenize_Ok in Hx as [Hx _]. exists x. split; [exact Hx|].
  injection H as <-. by destruct (_ && _).
Qed.

Lemma sentence_step_Ok st sentence st' :
  sentence_step st sentence = Ok st' ->
  exists encoded, encode sentence = Some encoded /\
    if flushes st (length encoded)
    then exists overlap encoded_overlap,
        compute_overlap (current_chunk st) = Ok overlap
        /\ encode overlap = Some encoded_overlap
        /\ st' = {| chunks := chunks st ++ [emit st];
                    current_chunk := overlap ++ [SPACE] ++ sentence;
                    current_tokens := length encoded_overlap + length encoded;
                    overlap_text := overlap |}
    else st' = {| chunks := chunks st;
                  current_chunk := current_chunk st ++ [SPACE] ++ sentence;
                  current_tokens := current_tokens st + length encoded;
                  overlap_text := overlap_text st |}.
Proof.
  unfold Assembler.sentence_step, Spec.flushes. intros H. inv_bind H.
  apply tokenize_Ok in Hx as [Hx _]. exists x. split; [exact Hx|].
  destruct (_ && _).
  - inv_bind H. inv_bind Hx0. inv_bind Hx0.
    apply tokenize_Ok in Hx2 as [Hx2 _].
    injection Hx0 as <-. injection H as <-. eauto.
  - inv_bind H. injection Hx0 as <-. by injection H as <-.
Qed.

Lemma unit_step_not_Diverge st u : unit_step st u <> Diverge.
Proof.
  destruct u as [[] s]; simpl.
  - unfold Assembler.code_step, Assembler.tokenize.
    destruct (encode s); simpl; discriminate.
  - unfold Assembler.sentence_step, Assembler.compute_overlap, Assembler.tokenize.
    destruct (encode s); simpl; [|discriminate].
    destruct (_ && _); simpl; [|discriminate].
    destruct (0 <? overlap_tokens); simpl.
    + destruct (encode (current_chunk st)); simpl; [|discriminate].
      destruct (encode _); simpl; discriminate.
    + destruct (encode []); simpl; discriminate.
Qed.

(** *** Runs *)

Lemma run_text_snoc r u :
  run_text {| carried := carried r; carried_tokens := carried_tokens r;
              members := members r ++ [u] |} = run_text r ++ piece u.
Proof.
  unfold run_text. simpl. rewrite map_app, concat_app. simpl.
  by rewrite app_nil_r, app_assoc.
Qed.

Lemma run_tokens_snoc r u :
  run_tokens {| carried := carried r; carried_tokens := carried_tokens r;
                members := members r ++ [u] |} = run_tokens r + unit_tokens u.
Proof.
  unfold Spec.run_tokens. simpl. rewrite sum_list_with_app. simpl. lia.
Qed.

Lemma run_text_nil_members r : run_text r = [] -> members r = [].
Proof.
  unfold run_text. intros H. apply app_eq_nil in H as [_ H].
  destruct (members r) as [|[[] s] l]; [reflexivity| |]; discriminate.
Qed.

Lemma nonempty_false (s : str) : nonempty s = false -> s = [].
Proof. by destruct s. Qed.

(** Appending a unit to the run under construction, without a flush. *)
Lemma run_ok_snoc st cur u :
  current_chunk st = run_text cur ->
  current_tokens st = run_tokens cur ->
  flushes st (unit_tokens u) = false ->
  run_ok cur ->
  run_ok {| carried := carried cur; carried_tokens := carried_tokens cur;
            members := members cur ++ [u] |}.
Proof.
  intros Htext Htok Hfl (Hc & Htl & Hb).
  assert (Hcase : members cur = [] \/
                  run_tokens cur + unit_tokens u <= max_tokens).
  { unfold Spec.flushes in Hfl. apply andb_false_iff in Hfl as [Hfl|Hfl].
    - right. apply Nat.ltb_ge in Hfl. lia.
    - left. apply nonempty_false in Hfl. apply run_text_nil_members. congruence. }
  split; [exact Hc|]. split.
  - simpl. destruct (members cur) as [|u0 l] eqn:Em; [constructor|].
    simpl in *. apply Forall_app. split; [exact Htl|].
    constructor; [|constructor]. destruct Hcase as [|Hle]; [done|lia].
  - destruct Hcase as [Hnil|Hle].
    + right. simpl. rewrite Hnil. simpl. lia.
    + left. rewrite run_tokens_snoc. exact Hle.
Qed.

(** A run that starts with one unit, after a flush. *)
Lemma run_ok_fresh c n u :
  (c = [] /\ n = 0) \/ n = count c ->
  run_ok {| carried := c; carried_tokens := n; members := [u] |}.
Proof.
  intros Hc. split; [exact Hc|]. split; [constructor|]. right. simpl. lia.
Qed.

Lemma unit_step_inv st closed cur u st' :
  inv st closed cur ->
  unit_step st u = Ok st' ->
  exists closed' cur',
    inv st' closed' cur'
    /\ concat (map members closed') ++ members cur'
       = (concat (map members closed) ++ members cur) ++ [u].
Proof.
  intros (Hch & Htext & Htok & Hclosed & Hcur) Hstep.
  assert (Hemit : emit st = run_chunk cur).
  { unfold emit, Spec.run_chunk. by rewrite Htext, Htok. }
  destruct u as [[] s]; simpl in Hstep.
  - (* verbatim segment *)
    apply code_step_Ok in Hstep as (encoded & Henc & ->).
    assert (Hcount : unit_tokens (Code, s) = length encoded).
    { unfold Spec.unit_tokens, Assembler.count. simpl. by rewrite Henc. }
    rewrite <- Hcount.
    destruct (flushes st (unit_tokens (Code, s))) eqn:Hfl.
    + exists (closed ++ [cur]),
        {| carried := []; carried_tokens := 0; members := [(Code, s)] |}.
      split.
      * refine (conj _ (conj _ (conj _ (conj _ _)))); simpl.
        -- by rewrite map_app, Hch, Hemit.
        -- unfold run_text, piece. simpl. by rewrite app_nil_r.
        -- unfold Spec.run_tokens. simpl. lia.
        -- apply Forall_app. split; [exact Hclosed|]. by constructor.
        -- apply run_ok_fresh. by left.
      * rewrite map_app, concat_app. simpl. by rewrite app_nil_r.
    + exists closed,
        {| carried := carried cur; carried_tokens := carried_tokens cur;
           members := members cur ++ [(Code, s)] |}.
      split.
      * refine (conj _ (conj _ (conj _ (conj _ _)))); simpl.
        -- exact Hch.
        -- rewrite run_text_snoc, Htext. reflexivity.
        -- rewrite run_tokens_snoc, Htok. reflexivity.
        -- exact Hclosed.
        -- by eapply run_ok_snoc.
      * simpl. by rewrite app_assoc.
  - (* sentence *)
    apply sentence_step_Ok in Hstep as (encoded & Henc & Hstep).
    assert (Hcount : unit_tokens (Text, s) = length encoded).
    { unfold Spec.unit_tokens, Assembler.count. simpl. by rewrite Henc. }
    rewrite <- Hcount in Hstep.
    destruct (flushes st (unit_tokens (Text, s))) eqn:Hfl.
    + destruct Hstep as (overlap & encoded_overlap & _ & Hov & ->).
      exists (closed ++ [cur]),
        {| carried := overlap; carried_tokens := length encoded_overlap;
           members := [(Text, s)] |}.
      split.
      * refine (conj _ (conj _ (conj _ (conj _ _)))); simpl.
        -- by rewrite map_app, Hch, Hemit.
        -- unfold run_text, piece. simpl. by rewrite app_nil_r.
        -- unfold Spec.run_tokens. simpl. lia.
        -- apply Forall_app. split; [exact Hclosed|]. by constructor.
        -- apply run_ok_fresh. right. unfold Assembler.count. by rewrite Hov.
      * rewrite map_app, concat_app. simpl. by rewrite app_nil_r.
    + subst st'.
      exists closed,
        {| carried := carried cur; carried_tokens := carried_tokens cur;
           members := members cur ++ [(Text, s)] |}.
      split.
      * refine (conj _ (conj _ (conj _ (conj _ _)))); simpl.
        -- exact Hch.
        -- rewrite run_text_snoc, Htext. reflexivity.
        -- rewrite run_tokens_snoc, Htok. reflexivity.
        -- exact Hclosed.
        -- by eapply run_ok_snoc.
      * simpl. by rewrite app_assoc.
Qed.

Lemma units_loop_inv units : forall st closed cur st',
  inv st closed cur ->
  units_loop st units = Ok st' ->
  exists closed' cur',
    inv st' closed' cur'
    /\ concat (map members closed') ++ members cur'
       = (concat (map members closed) ++ members cur) ++ units.
Proof.
  induction units as [|u units IH]; intros st closed cur st' Hinv Hloop.
  - injection Hloop as <-. exists closed, cur. by rewrite app_nil_r.
  - simpl in Hloop. inv_bind Hloop.
    destruct (unit_step_inv _ _ _ _ _ Hinv Hx) as (closed1 & cur1 & Hinv1 & Hu1).
    destruct (IH _ _ _ _ Hinv1 Hloop) as (closed2 & cur2 & Hinv2 & Hu2).
    exists closed2, cur2. split; [exact Hinv2|].
    rewrite Hu2, Hu1, <- app_assoc. reflexivity.
Qed.

Lemma inv_initial :
  inv initial_state [] {| carried := []; carried_tokens := 0; members := [] |}.
Proof.
  refine (conj _ (conj _ (conj _ (conj _ _)))); try reflexivity; [constructor|].
  split; [by left|]. split; [constructor|]. left. unfold Spec.run_tokens. simpl. lia.
Qed.

(** Every chunk list returned is the list of the runs of the unit stream. *)
Lemma chunk_segments_runs fuel segments units chunks :
  units_of fuel segments = Some units ->
  chunk_segments fuel segments = Ok chunks ->
  exists closed last,
    chunks = emitted closed last
    /\ concat (map members (closed ++ [last])) = units
    /\ Forall run_ok (closed ++ [last]).
Proof.
  intros Hunits Hrun. unfold Assembler.chunk_segments in Hrun. inv_bind Hrun.
  rewrite (segments_loop_units _ _ _ _ Hunits) in Hx.
  destruct (units_loop_inv _ _ _ _ _ inv_initial Hx)
    as (closed & last & (Hch & Htext & Htok & Hclosed & Hlast) & Hu).
  exists closed, last. injection Hrun as <-. split; [|split].
  - unfold finish, Spec.emitted, emit, Spec.run_chunk.
    rewrite Hch, Htext, Htok. destruct (nonempty _); [reflexivity|].
    by rewrite app_nil_r.
  - rewrite map_app, concat_app. simpl. rewrite app_nil_r. exact Hu.
  - apply Forall_app. split; [exact Hclosed|]. by constructor.
Qed.

Lemma emitted_lookup closed last i c :
  emitted closed last !! i = Some c ->
  exists r, (closed ++ [last]) !! i = Some r /\ c = run_chunk r.
Proof.
  unfold Spec.emitted. intros H.
  apply lookup_app_Some in H as [H|[Hi H]].
  - rewrite list_lookup_fmap in H.
    destruct (closed !! i) as [r|] eqn:E; [|discriminate].
    injection H as <-. exists r. split; [|reflexivity].
    by apply lookup_app_l_Some.
  - rewrite length_map in Hi, H.
    destruct (nonempty _); [|by rewrite lookup_nil in H].
    destruct (i - length closed) as [|k] eqn:Ek; [|by rewrite lookup_cons, lookup_nil in H].
    injection H as <-. exists last. split; [|reflexivity].
    rewrite lookup_app_r by lia. by rewrite Ek.
Qed.

Lemma unit_in_run_text r u :
  u ∈ members r -> exists a b, run_text r = a ++ u.2 ++ b.
Proof.
  intros Hin. apply list_elem_of_split in Hin as (l1 & l2 & Hm).
  unfold run_text. rewrite Hm, map_app, concat_app. simpl.
  destruct u as [[] s]; unfold piece; simpl.
  - exists (carried r ++ concat (map piece l1) ++ [NEWLINE]), (concat (map piece l2)).
    by rewrite <- !app_assoc.
  - exists (carried r ++ concat (map piece l1) ++ [SPACE]), (concat (map piece l2)).
    by rewrite <- !app_assoc.
Qed.

Lemma unit_tokens_le_run r u :
  u ∈ members r -> unit_tokens u <= run_tokens r.
Proof.
  intros Hin. apply list_elem_of_split in Hin as (l1 & l2 & Hm).
  unfold Spec.run_tokens. rewrite Hm, sum_list_with_app. simpl. lia.
Qed.

Lemma emitted_lookup_inv closed last i r :
  (closed ++ [last]) !! i = Some r ->
  nonempty (strip (run_text r)) = true ->
  emitted closed last !! i = Some (run_chunk r).
Proof.
  intros H Hne. unfold Spec.emitted.
  apply lookup_app_Some in H as [H|[Hi H]].
  - apply lookup_app_l_Some. by rewrite list_lookup_fmap, H.
  - destruct (i - length closed) as [|k] eqn:Ek; [|by rewrite lookup_cons, lookup_nil in H].
    injection H as <-. rewrite Hne.
    rewrite lookup_app_r by (rewrite length_map; lia).
    by rewrite length_map, Ek.
Qed.

(** *** The assembler returns whenever the tokenizer and the splitter do *)

Lemma unit_step_total st u :
  (forall s, is_Some (encode s)) -> exists st', unit_step st u = Ok st'.
Proof.
  intros Htot. destruct u as [[] s]; simpl.
  - unfold Assembler.code_step, Assembler.tokenize.
    destruct (Htot s) as [e ->]. simpl. eauto.
  - unfold Assembler.sentence_step, Assembler.compute_overlap, Assembler.tokenize.
    destruct (Htot s) as [e ->]. simpl.
    destruct (_ && _); simpl; [|eauto].
    destruct (0 <? overlap_tokens); simpl.
    + destruct (Htot (current_chunk st)) as [e1 ->]. simpl.
      destruct (Htot (decode (last_tokens
                  (Nat.min overlap_tokens (length e1)) e1))) as [e2 ->].
      simpl. eauto.
    + destruct (Htot []) as [e2 ->]. simpl. eauto.
Qed.

Lemma units_loop_total units :
  (forall s, is_Some (encode s)) ->
  forall st, exists st', units_loop st units = Ok st'.
Proof.
  intros Htot. induction units as [|u units IH]; intros st; simpl; [eauto|].
  destruct (unit_step_total st u Htot) as [st1 ->]. simpl. apply IH.
Qed.

Lemma chunk_segments_total fuel segments units :
  (forall s, is_Some (encode s)) ->
  units_of fuel segments = Some units ->
  exists chunks, chunk_segments fuel segments = Ok chunks.
Proof.
  intros Htot Hunits. unfold Assembler.chunk_segments.
  rewrite (segments_loop_units _ _ _ _ Hunits).
  destruct (units_loop_total units Htot initial_state) as [st ->].
  simpl. eauto.
Qed.

(** A step appends the unit behind exactly one separator character: a
    newline before a verbatim segment, a space before a sentence. What
    it is appended to is the chunk under construction, or, after a
    flush, the empty string (verbatim segment) or the text carried over
    (sentence). *)
Lemma unit_step_appends_behind_separator st u st' :
  unit_step st u = Ok st' ->
  exists base,
    current_chunk st'
    = base ++ [match u.1 with Code => NEWLINE | Text => SPACE end] ++ u.2
    /\ (base = current_chunk st
        \/ match u.1 with
           | Code => base = []
           | Text => base = overlap_text st'
           end).
Proof.
  destruct u as [[] s]; simpl; intros Hstep.
  - apply code_step_Ok in Hstep as (encoded & _ & ->).
    destruct (flushes st (length encoded)); simpl.
    + exists []. auto.
    + exists (current_chunk st). auto.
  - apply sentence_step_Ok in Hstep as (encoded & _ & Hstep).
    destruct (flushes st (length encoded)).
    + destruct Hstep as (overlap & ? & _ & _ & ->). simpl.
      exists overlap. auto.
    + subst st'. simpl. exists (current_chunk st). auto.
Qed.

(** *** Flushes and overlap *)

(** A flush caused by a sentence starts the next chunk with the decoded
    last tokens of the text being flushed. *)
Lemma sentence_flush_carries_overlap st sentence st' encoded encoded_current :
  sentence_step st sentence = Ok st' ->
  encode sentence = Some encoded ->
  flushes st (length encoded) = true ->
  0 < overlap_tokens ->
  encode (current_chunk st) = Some encoded_current ->
  current_chunk st'
  = decode (last_tokens (Nat.min overlap_tokens (length encoded_current))
                        encoded_current)
    ++ [SPACE] ++ sentence.
Proof.
  intros Hstep Henc Hfl Hov Hcur.
  apply sentence_step_Ok in Hstep as (encoded' & Henc' & Hstep).
  rewrite Henc in Henc'. injection Henc' as <-. rewrite Hfl in Hstep.
  destruct Hstep as (overlap & ? & Hco & _ & ->). simpl.
  unfold Assembler.compute_overlap, Assembler.tokenize in Hco.
  apply Nat.ltb_lt in Hov. rewrite Hov, Hcur in Hco. simpl in Hco.
  by injection Hco as <-.
Qed.

(** A flush caused by a verbatim segment carries nothing, whatever
    [overlap_tokens] is: the next chunk starts with the segment. *)
Lemma code_flush_carries_nothing st segment st' encoded :
  code_step st segment = Ok st' ->
  encode segment = Some encoded ->
  flushes st (length encoded) = true ->
  current_chunk st' = [NEWLINE] ++ segment
  /\ current_tokens st' = length encoded
  /\ chunks st' = chunks st ++ [emit st].
Proof.
  intros Hstep Henc Hfl.
  apply code_step_Ok in Hstep as (encoded' & Henc' & ->).
  rewrite Henc in Henc'. injection Henc' as <-. by rewrite Hfl.
Qed.

End AssemblerFacts.

Example sample_run :
  units_of (Some period_sents) 1 (preprocess_text sample_document)
  = Some sample_units
  /\ chunk_segments char_encode char_decode (Some period_sents) 10 5 1
       (preprocess_text sample_document) = Ok sample_chunks.
Proof. split; vm_compute; reflexivity. Qed.

(** C3 as stated fails in its "exactly one chunk": with [max_tokens = 10]
    and [overlap_tokens = 5], the sentence [Hi.] is flushed by the
    sentence that follows it and carried over as overlap, so that its
    text stands whole in both chunks. *)
Lemma unit_text_whole_in_two_chunks :
  units_of (Some period_sents) 1 (preprocess_text (lit "Hi. abcdefgh."))
  = Some [(Text, lit "Hi."); (Text, lit "abcdefgh.")]
  /\ chunk_segments char_encode char_decode (Some period_sents) 10 5 1
       (preprocess_text (lit "Hi. abcdefgh."))
     = Ok [ {| text := lit "Hi."; token_count := 3 |};
            {| text := lit "Hi. abcdefgh."; token_count := 13 |} ]
  /\ lit "Hi." = [] ++ lit "Hi." ++ []
  /\ lit "Hi. abcdefgh." = [] ++ lit "Hi." ++ lit " abcdefgh.".
Proof. repeat split; vm_compute; reflexivity. Qed.

(** C5 as stated fails: two sentences of three characters make a chunk of
    seven characters, stored with a count of six. Whatever the tokenizer,
    the count stored for this document is the sum of the counts of its
    two sentences, whether or not the tokenizer counts as many tokens in
    the text of the chunk. *)
Lemma token_count_not_count_of_text :
  chunk_segments char_encode char_decode (Some period_sents) 10 5 1
    (preprocess_text (lit "Hi. Yo."))
  = Ok [ {| text := lit "Hi. Yo."; token_count := 6 |} ]
  /\ count char_encode (lit "Hi. Yo.") = 7
  /\ forall encode decode e1 e2,
      encode (lit "Hi.") = Some e1 -> encode (lit "Yo.") = Some e2 ->
      length e1 + length e2 <= 10 ->
      chunk_segments encode decode (Some period_sents) 10 5 1
        (preprocess_text (lit "Hi. Yo."))
      = Ok [ {| text := lit "Hi. Yo.";
                token_count := length e1 + length e2 |} ].
Proof.
  split; [vm_compute; reflexivity|]. split; [vm_compute; reflexivity|].
  intros encode decode e1 e2 H1 H2 Hle. unfold chunk_segments.
  rewrite (segments_loop_units encode decode (Some period_sents) 10 5 1
             initial_state _ [(Text, lit "Hi."); (Text, lit "Yo.")])
    by (vm_compute; reflexivity).
  cbn [units_loop unit_step].
  unfold sentence_step at 1, tokenize. rewrite H1.
  cbn [bind initial_state current_chunk current_tokens nonempty].
  rewrite andb_false_r. cbn [bind].
  unfold sentence_step, tokenize. rewrite H2.
  cbn [bind current_chunk current_tokens chunks overlap_text].
  replace (10 <? current_tokens initial_state + length e1 + length e2)
    with false by (symmetry; apply Nat.ltb_ge; simpl; lia).
  cbn [andb bind]. unfold finish, emit. vm_compute strip.
  reflexivity.
Qed.

(** C9 as stated fails for verbatim segments: a newline that belongs to
    neither segment stands between them in the chunk. *)
Lemma verbatim_segment_gets_a_newline :
  ~ (forall st segment st',
        code_step char_encode 100 st segment = Ok st' ->
        current_chunk st' = current_chunk st ++ segment
        \/ current_chunk st' = segment)
  /\ chunk_segments char_encode char_decode (Some period_sents) 100 0 1
       [(Code, lit "```a```"); (Code, lit "```b```")]
     = Ok [ {| text := lit "```a```" ++ [NEWLINE] ++ lit "```b```";
               token_count := 14 |} ].
Proof.
  split; [|vm_compute; reflexivity].
  intros H.
  specialize (H initial_state (lit "```a```") _ eq_refl).
  vm_compute in H. destruct H as [H|H]; discriminate H.
Qed.

(** C1 fails on the code. With [max_tokens = 10] and [overlap_tokens = 5],
    two sentences of 8 tokens each: the second chunk starts with the 5
    tokens carried over and receives the second sentence without a new
    test, so that its [token_count] is 13, although no unit exceeds 10. *)
Theorem budget_exceeded_by_carried_overlap :
  units_of (Some period_sents) 1 (preprocess_text (lit "aaaaaaa. bbbbbbb."))
  = Some [(Text, lit "aaaaaaa."); (Text, lit "bbbbbbb.")]
  /\ unit_tokens char_encode (Text, lit "aaaaaaa.") = 8
  /\ unit_tokens char_encode (Text, lit "bbbbbbb.") = 8
  /\ chunk_segments char_encode char_decode (Some period_sents) 10 5 1
       (preprocess_text (lit "aaaaaaa. bbbbbbb."))
     = Ok [ {| text := lit "aaaaaaa."; token_count := 8 |};
            {| text := lit "aaaa. bbbbbbb."; token_count := 13 |} ].
Proof. repeat split; vm_compute; reflexivity. Qed.

(** C2 fails on the code. With [max_tokens = 16] and [overlap_tokens = 3],
    a sentence of 5 tokens followed by a verbatim segment of 14: the
    segment flushes the first chunk and the second chunk starts with the
    segment itself; its first 3 tokens decode to three backticks, the
    last 3 tokens of the first chunk decode to ["aa."]. *)
Theorem verbatim_flush_carries_no_overlap :
  let chunk0 := {| text := lit "aaaa."; token_count := 5 |} in
  let chunk1 := {| text := lit "```bbbbbbbb```"; token_count := 14 |} in
  chunk_segments char_encode char_decode (Some period_sents) 16 3 1
    (preprocess_text (lit "aaaa.```bbbbbbbb```")) = Ok [chunk0; chunk1]
  /\ (char_decode <$> (take 3 <$> char_encode (text chunk1))) = Some (lit "```")
  /\ (char_decode <$> (last_tokens 3 <$> char_encode (text chunk0)))
     = Some (lit "aa.").
Proof. repeat split; vm_compute; reflexivity. Qed.

(** ** Chunk Writer *)

Example segment_text_file_ex :
  segment_text_file char_encode char_decode (Some period_sents)
    slash_join stem (fun _ => true) (fun _ => true) 1 sample_fs (lit "in/doc.txt") (lit "out")
  = Some ({| files := {[ lit "in/doc.txt" := lit "One. Two.```x``` Three.";
                         lit "out/doc_chunk_1.txt" :=
                           lit "One. Two." ++ NEWLINE :: lit "```x``` Three." ]};
             dirs := {[ lit "out"; lit "in" ]} |},
          [ CreatedDirectory (lit "out");
            StartingSegmentation (lit "in/doc.txt");
            TotalChunks 1 (lit "in/doc.txt");
            CreatedChunk (lit "doc_chunk_1.txt") 21;
            NoChunksWarning (lit "in/doc.txt") ]).
Proof. vm_compute. reflexivity. Qed.

Lemma path_exists_spec fs path :
  path_exists fs path = true <-> is_Some (files fs !! path) \/ path ∈ dirs fs.
Proof.
  unfold path_exists. by rewrite orb_true_iff, !bool_decide_eq_true.
Qed.


Lemma path_exists_false fs path :
  path_exists fs path = false -> files fs !! path = None.
Proof.
  intros H. apply eq_None_not_Some. intros Hs.
  assert (path_exists fs path = true) by (apply path_exists_spec; by left).
  congruence.
Qed.

Section WriterFacts.

Context (encode : str -> option (list N)) (decode : list N -> str).
Context (nlp : option (str -> list str)).
Context (path_join : str -> str -> str) (base_filename_of : str -> str).
Context (writable creatable : str -> bool).

Local Abbreviation write_chunks := (write_chunks path_join writable).
Local Abbreviation segment_opened_file :=
  (segment_opened_file encode decode nlp path_join base_filename_of writable).
Local Abbreviation segment_text_file :=
  (segment_text_file encode decode nlp path_join base_filename_of
                     writable creatable).

(** Writing only adds files. *)
Lemma write_chunks_mono chunks : forall fs log output_dir base i fs1 log1 raised,
  write_chunks fs log output_dir base i chunks = (fs1, log1, raised) ->
  files fs ⊆ files fs1 /\ dirs fs1 = dirs fs.
Proof.
  induction chunks as [|c rest IH]; intros fs log output_dir base i fs1 log1 raised.
  - intros [= <- _ _]. done.
  - cbn [Writer.write_chunks].
    destruct (path_exists fs _) eqn:Ex; [by apply IH|].
    destruct (writable _); [|by intros [= <- _ _]].
    intros H. apply IH in H as [Hf Hd]. simpl in *. split; [|exact Hd].
    etransitivity; [|exact Hf].
    apply insert_subseteq. by apply path_exists_false.
Qed.






(** *** Tokenizer failures *)

Lemma units_loop_Raise max_tokens overlap_tokens units u :
  u ∈ units -> encode u.2 = None ->
  forall st, exists offending,
    units_loop encode decode max_tokens overlap_tokens st units
    = Raise offending.
Proof.
  intros Hin Hnone. induction units as [|u0 units IH]; [by inversion Hin|].
  intros st. simpl.
  destruct (unit_step encode decode max_tokens overlap_tokens st u0)
    as [st1|e|] eqn:Estep; simpl.
  - apply elem_of_cons in Hin as [->|Hin]; [|by apply IH].
    exfalso. destruct u0 as [[] s]; simpl in *.
    + apply code_step_Ok in Estep as (? & ? & _). congruence.
    + apply sentence_step_Ok in Estep as (? & ? & _). congruence.
  - eauto.
  - by apply unit_step_not_Diverge in Estep.
Qed.

(** C6 (as the code has it). When the tokenizer fails on the text of a
    unit of the document, [chunk_segments] raises; [segment_text_file]
    catches the exception and logs it as a failure of the whole
    document, and no chunk of the document is written. *)
Theorem encode_failure_abandons_document
    fuel fs input_path output_dir body units u :
  files fs !! input_path = Some body ->
  units_of nlp fuel (preprocess_text body) = Some units ->
  u ∈ units ->
  encode u.2 = None ->
  exists fs1 log,
    segment_text_file fuel fs input_path output_dir = Some (fs1, log)
    /\ files fs1 = files fs
    /\ last log = Some (FailedToSegment input_path).
Proof.
  intros Hbody Hunits Hin Hnone.
  assert (Hraise : exists offending,
             chunk_segments encode decode nlp 3000 200 fuel
               (preprocess_text body) = Raise offending).
  { unfold chunk_segments.
    rewrite (segments_loop_units _ _ _ _ _ _ _ _ _ Hunits).
    destruct (units_loop_Raise 3000 200 units u Hin Hnone initial_state)
      as (e & ->).
    by exists e. }
  destruct Hraise as (e & Hraise).
  unfold Writer.segment_text_file, Writer.segment_opened_file.
  destruct (path_exists fs output_dir); [|destruct (creatable output_dir)];
    simpl; rewrite ?Hbody, ?Hraise; eexists _, _; (split; [reflexivity|]);
    split; try reflexivity; by rewrite ?last_snoc.
Qed.

End WriterFacts.


Lemma encode_failure_abandons_document_witness :
  let body := lit "Fine. ```a|b``` End." in
  let units := [(Text, lit "Fine."); (Code, lit "```a|b```"); (Text, lit "End.")] in
  files barred_fs !! lit "in/doc.txt" = Some body
  /\ units_of (Some period_sents) 1 (preprocess_text body) = Some units
  /\ (Code, lit "```a|b```") ∈ units
  /\ strict_encode (lit "```a|b```") = None
  /\ exists fs1 log,
      segment_text_file strict_encode char_decode (Some period_sents)
        slash_join stem (fun _ => true) (fun _ => true) 1
        barred_fs (lit "in/doc.txt") (lit "out")
      = Some (fs1, log)
      /\ files fs1 = files barred_fs
      /\ last log = Some (FailedToSegment (lit "in/doc.txt")).
Proof.
  intros body units.
  assert (H1 : files barred_fs !! lit "in/doc.txt" = Some body)
    by (vm_compute; reflexivity).
  assert (H2 : units_of (Some period_sents) 1 (preprocess_text body) = Some units)
    by (vm_compute; reflexivity).
  assert (H3 : (Code, lit "```a|b```") ∈ units)
    by (apply list_elem_of_In; simpl; auto).
  assert (H4 : strict_encode (lit "```a|b```") = None)
    by (vm_compute; reflexivity).
  repeat (split; [assumption|]).
  exact (encode_failure_abandons_document strict_encode char_decode
           (Some period_sents) slash_join stem (fun _ => true) (fun _ => true)
           1 barred_fs (lit "in/doc.txt") (lit "out") body units
           (Code, lit "```a|b```") H1 H2 H3 H4).
Defined.

(** C6 as stated fails: the tokenizer refuses the verbatim block of the
    document, [chunk_segments] raises on it, and no chunk at all is
    written, although the sentence before the block was accepted. *)
Lemma encode_failure_drops_every_chunk :
  strict_encode (lit "```a|b```") = None
  /\ strict_encode (lit "Fine.") = Some (lit "Fine.")
  /\ chunk_segments strict_encode char_decode (Some period_sents) 3000 200 1
       (preprocess_text (lit "Fine. ```a|b``` End."))
     = Raise (lit "```a|b```")
  /\ segment_text_file strict_encode char_decode (Some period_sents)
       slash_join stem (fun _ => true) (fun _ => true) 1 barred_fs (lit "in/doc.txt") (lit "out")
     = Some ({| files := files barred_fs; dirs := {[ lit "out"; lit "in" ]} |},
             [ CreatedDirectory (lit "out");
               StartingSegmentation (lit "in/doc.txt");
               FailedToSegment (lit "in/doc.txt") ]).
Proof. repeat split; vm_compute; reflexivity. Qed.

(** * Further properties *)

(** ** Segment Preprocessor: the shape of the segments *)

Lemma preprocess_fold_segments_from text ms : forall segs last,
  (let r := foldl (preprocess_step text) (segs, last) ms in
   if r.2 <? length text
   then r.1 ++ [(Text, slice text r.2 (length text))]
   else r.1)
  = segs ++ segments_from text last ms.
Proof.
  induction ms as [|[s e] ms IH]; intros segs last.
  - simpl. destruct (last <? length text); [reflexivity|]. by rewrite app_nil_r.
  - cbn [foldl preprocess_step fst snd segments_from].
    cbn zeta in IH. rewrite IH.
    destruct (last <? s); by rewrite <- ?app_assoc.
Qed.

Lemma preprocess_text_segments_from text :
  preprocess_text text = segments_from text 0 (finditer text).
Proof.
  unfold preprocess_text.
  pose proof (preprocess_fold_segments_from text (finditer text) [] 0) as H.
  cbn zeta in H. destruct (foldl _ _ _) as [segments last_idx].
  exact H.
Qed.

(** [preprocess_text] resumed at a position, one match at a time. *)
Lemma segments_from_step text pos :
  segments_from text pos (finditer_from text pos) =
  match search_code text pos with
  | Some (s, e) =>
      (if pos <? s then [(Text, slice text pos s)] else [])
      ++ (Code, slice text s e)
         :: segments_from text e (finditer_from text e)
  | None =>
      if pos <? length text then [(Text, slice text pos (length text))] else []
  end.
Proof.
  rewrite finditer_from_step.
  by destruct (search_code text pos) as [[s e]|].
Qed.

(** An induction principle that follows the matches. *)
Lemma segments_from_ind (P : list segment -> Prop) text :
  (forall pos, search_code text pos = None ->
     P (if pos <? length text
        then [(Text, slice text pos (length text))] else [])) ->
  (forall pos s e rest, search_code text pos = Some (s, e) ->
     P rest ->
     P ((if pos <? s then [(Text, slice text pos s)] else [])
        ++ (Code, slice text s e) :: rest)) ->
  forall pos, P (segments_from text pos (finditer_from text pos)).
Proof.
  intros Hend Hstep pos.
  remember (length text - pos) as k eqn:Hk.
  revert pos Hk. induction k as [k IH] using lt_wf_ind. intros pos ->.
  rewrite segments_from_step.
  destruct (search_code text pos) as [[s e]|] eqn:E; [|by apply Hend].
  apply Hstep; [exact E|].
  apply search_code_bounds in E.
  apply (IH (length text - e)); [lia | reflexivity].
Qed.

Lemma slice_nonempty (t : str) a b :
  a < b -> b <= length t -> slice t a b <> [].
Proof.
  intros Hab Hb H. apply (f_equal (@length _)) in H.
  rewrite length_slice in H by exact Hb. simpl in H. lia.
Qed.

Lemma segments_nonempty (text : str) :
  Forall (fun seg : segment => seg.2 <> []) (preprocess_text text).
Proof.
  rewrite preprocess_text_segments_from. unfold finditer.
  apply segments_from_ind.
  - intros pos _. destruct (Nat.ltb_spec pos (length text)); [|constructor].
    constructor; [|constructor]. simpl. by apply slice_nonempty.
  - intros pos s e rest E Hrest. apply search_code_bounds in E.
    apply Forall_app. split.
    + destruct (Nat.ltb_spec pos s); [|constructor].
      constructor; [|constructor]. simpl. apply slice_nonempty; lia.
    + constructor; [|exact Hrest]. simpl. apply slice_nonempty; lia.
Qed.

(** No segment is empty: prose between two matches is kept only when
    there is some, and a match holds at least its two fences. *)
Theorem preprocess_text_segments_nonempty (text : str) :
  Forall (fun seg : segment => seg.2 <> []) (preprocess_text text).
Proof. exact (segments_nonempty text). Qed.

(** Prose segments are maximal: two of them never follow each other. *)
Theorem preprocess_text_no_adjacent_text (text : str) :
  no_adjacent_text (preprocess_text text).
Proof.
  rewrite preprocess_text_segments_from. unfold finditer.
  apply segments_from_ind.
  - intros pos _. by destruct (pos <? length text).
  - intros pos s e rest E Hrest. by destruct (pos <? s).
Qed.

Lemma starts_with_fence_take3 (u : str) :
  starts_with_fence u = true -> take 3 u = fence.
Proof.
  destruct u as [|a [|b [|c u]]]; simpl; try discriminate.
  intros H. apply andb_true_iff in H as [H Hc]. apply andb_true_iff in H as [Ha Hb].
  apply N.eqb_eq in Ha, Hb, Hc. by subst.
Qed.

Lemma starts_with_fence_prefix (u : str) n :
  starts_with_fence (take n u) = true -> starts_with_fence u = true.
Proof.
  destruct n as [|[|[|n]]], u as [|a [|b [|c u]]]; simpl; try discriminate; auto.
Qed.

Lemma starts_with_fence_app (u v : str) :
  starts_with_fence u = true -> starts_with_fence (u ++ v) = true.
Proof. destruct u as [|a [|b [|c u]]]; simpl; try discriminate; auto. Qed.

Lemma find_fence_here (u : str) j :
  find_fence u = Some j -> starts_with_fence (drop j u) = true.
Proof.
  revert j. induction u as [|a u IH]; intros j; [discriminate|].
  cbn [find_fence]. destruct (starts_with_fence (a :: u)) eqn:E.
  - by intros [= <-].
  - destruct (find_fence u) as [k|]; simpl; [|discriminate].
    intros [= <-]. by apply IH.
Qed.

(** The first fence of a text is found by looking at the text up to the
    end of that fence, and there is none before it. *)
Lemma find_fence_take (u : str) j :
  find_fence u = Some j ->
  find_fence (take (j + 3) u) = Some j /\ find_fence (take j u) = None.
Proof.
  revert j. induction u as [|a u IH]; intros j; [discriminate|].
  cbn [find_fence]. destruct (starts_with_fence (a :: u)) eqn:E.
  - intros [= <-]. split; [|reflexivity].
    destruct u as [|b [|c u]]; simpl in E; try discriminate.
    simpl. by rewrite E.
  - destruct (find_fence u) as [k|] eqn:Ek; simpl; [|discriminate].
    intros [= <-]. destruct (IH k eq_refl) as [IH1 IH2].
    assert (Hno : forall n, starts_with_fence (a :: take n u) = false).
    { intros n. destruct (starts_with_fence (a :: take n u)) eqn:En; [|done].
      apply (starts_with_fence_prefix (a :: u) (S n)) in En. congruence. }
    split.
    + replace (S k + 3) with (S (k + 3)) by lia.
      cbn [firstn find_fence]. by rewrite Hno, IH1.
    + cbn [firstn find_fence]. by rewrite Hno, IH2.
Qed.

(** What a match looks like: the two fences around a body, the closing
    fence being the first fence after the opening one; and there is no
    fence in the prose skipped before the match. *)
Lemma search_code_shape text pos s e :
  search_code text pos = Some (s, e) ->
  (exists body,
      slice text s e = fence ++ body ++ fence
      /\ find_fence (body ++ fence) = Some (length body))
  /\ find_fence (slice text pos s) = None.
Proof.
  intros H. unfold search_code in H.
  destruct (find_fence (drop pos text)) as [i|] eqn:Ei; [|discriminate].
  destruct (find_fence (drop (pos + i + 3) text)) as [j|] eqn:Ej; [|discriminate].
  injection H as <- <-. split.
  - exists (take j (drop (pos + i + 3) text)).
    pose proof (find_fence_bound _ _ Ej) as Hj.
    pose proof (find_fence_here _ _ Ei) as Hopen.
    pose proof (find_fence_here _ _ Ej) as Hclose.
    apply starts_with_fence_take3 in Hopen, Hclose.
    rewrite drop_drop in Hopen, Hclose.
    destruct (find_fence_take _ _ Ej) as [Hfirst _].
    rewrite <- take_take_drop, drop_drop in Hfirst.
    rewrite Hclose in Hfirst.
    split.
    + unfold slice.
      replace (pos + i + 3 + j + 3 - (pos + i)) with (3 + (j + 3)) by lia.
      rewrite <- take_take_drop, drop_drop, Hopen.
      rewrite <- take_take_drop, drop_drop, Hclose. reflexivity.
    + rewrite Hfirst. f_equal. rewrite length_take. lia.
  - unfold slice. replace (pos + i - pos) with i by lia.
    by apply find_fence_take.
Qed.

Lemma code_segment_shape (text seg : str) :
  (Code, seg) ∈ preprocess_text text ->
  exists body,
    seg = fence ++ body ++ fence
    /\ find_fence (body ++ fence) = Some (length body).
Proof.
  rewrite preprocess_text_segments_from. unfold finditer. revert seg.
  apply (segments_from_ind
           (fun l => forall seg, (Code, seg) ∈ l ->
              exists body, seg = fence ++ body ++ fence
                /\ find_fence (body ++ fence) = Some (length body))).
  - intros pos _ seg Hin. destruct (pos <? length text).
    + apply list_elem_of_singleton in Hin. discriminate.
    + by apply elem_of_nil in Hin.
  - intros pos s e rest E Hrest seg Hin.
    apply elem_of_app in Hin as [Hin|Hin].
    + destruct (pos <? s); [|by apply elem_of_nil in Hin].
      apply list_elem_of_singleton in Hin. discriminate.
    + apply elem_of_cons in Hin as [Heq|Hin]; [|by apply Hrest].
      injection Heq as ->. by apply search_code_shape in E as [E _].
Qed.

(** Every verbatim segment is an opening fence, a body and a closing
    fence, and the closing fence is the first fence that follows the
    opening one (the match is the shortest possible). *)
Theorem preprocess_text_code_shape (text seg : str) :
  (Code, seg) ∈ preprocess_text text ->
  exists body,
    seg = fence ++ body ++ fence
    /\ find_fence (body ++ fence) = Some (length body).
Proof. exact (code_segment_shape text seg). Qed.

Lemma preprocess_text_code_shape_witness :
  (Code, lit "```c```") ∈ preprocess_text (lit "ab```c```d")
  /\ exists body,
      lit "```c```" = fence ++ body ++ fence
      /\ find_fence (body ++ fence) = Some (length body).
Proof.
  assert (H : (Code, lit "```c```") ∈ preprocess_text (lit "ab```c```d")).
  { apply list_elem_of_In. vm_compute. auto. }
  split; [exact H|].
  exact (preprocess_text_code_shape (lit "ab```c```d") (lit "```c```") H).
Defined.

Lemma search_code_None_drop text pos :
  search_code text pos = None -> search_code (drop pos text) 0 = None.
Proof.
  unfold search_code. rewrite drop_0.
  destruct (find_fence (drop pos text)) as [i|]; [|done].
  rewrite drop_drop.
  replace (pos + (0 + i + 3)) with (pos + i + 3) by lia.
  by destruct (find_fence (drop (pos + i + 3) text)).
Qed.

Lemma find_fence_None_search (u : str) :
  find_fence u = None -> search_code u 0 = None.
Proof. intros H. unfold search_code. by rewrite drop_0, H. Qed.

Lemma slice_to_end (t : str) pos : slice t pos (length t) = drop pos t.
Proof. unfold slice. apply take_ge. rewrite length_drop. lia. Qed.

Lemma without_block (text : str) :
  search_code text 0 = None ->
  preprocess_text text = if nonempty text then [(Text, text)] else [].
Proof.
  intros H. rewrite preprocess_text_segments_from. unfold finditer.
  rewrite segments_from_step, H.
  destruct text as [|c t]; [reflexivity|].
  change (0 <? length (c :: t)) with true. cbv iota.
  by rewrite slice_to_end, drop_0.
Qed.

(** A text without a complete fenced block, be it without any fence or
    with an opening fence that is never closed, is one prose segment; the
    empty text gives no segment. *)
Theorem preprocess_text_without_block (text : str) :
  search_code text 0 = None ->
  preprocess_text text = if nonempty text then [(Text, text)] else [].
Proof. exact (without_block text). Qed.

Lemma preprocess_text_without_block_witness :
  search_code (lit "ab```c") 0 = None
  /\ preprocess_text (lit "ab```c")
     = if nonempty (lit "ab```c") then [(Text, lit "ab```c")] else [].
Proof.
  assert (H : search_code (lit "ab```c") 0 = None) by (vm_compute; reflexivity).
  split; [exact H|]. exact (preprocess_text_without_block (lit "ab```c") H).
Defined.

(** No prose segment contains a complete fenced block. *)
Lemma preprocess_text_prose_has_no_block (text seg : str) :
  (Text, seg) ∈ preprocess_text text -> search_code seg 0 = None.
Proof.
  rewrite preprocess_text_segments_from. unfold finditer. revert seg.
  apply (segments_from_ind
           (fun l => forall seg, (Text, seg) ∈ l -> search_code seg 0 = None)).
  - intros pos E seg Hin. destruct (pos <? length text).
    + apply list_elem_of_singleton in Hin. injection Hin as ->.
      rewrite slice_to_end. by apply search_code_None_drop.
    + by apply elem_of_nil in Hin.
  - intros pos s e rest E Hrest seg Hin.
    apply elem_of_app in Hin as [Hin|Hin].
    + destruct (pos <? s); [|by apply elem_of_nil in Hin].
      apply list_elem_of_singleton in Hin. injection Hin as ->.
      apply find_fence_None_search. by apply search_code_shape in E as [_ E].
    + apply elem_of_cons in Hin as [Heq|Hin]; [discriminate|by apply Hrest].
Qed.

(** Preprocessing is stable: the text of a segment, preprocessed again,
    is that one segment, with the same type. *)
Theorem preprocess_text_segment_fixpoint (text : str) (seg : segment) :
  seg ∈ preprocess_text text -> preprocess_text seg.2 = [seg].
Proof.
  intros Hin. destruct seg as [[] seg]; simpl.
  - destruct (code_segment_shape _ _ Hin) as (body & -> & Hbody).
    rewrite preprocess_text_segments_from. unfold finditer.
    set (seg := fence ++ body ++ fence).
    assert (Hlen : length seg = 0 + 3 + length body + 3).
    { subst seg. rewrite !length_app. simpl. lia. }
    assert (E : search_code seg 0 = Some (0, length seg)).
    { unfold search_code. rewrite drop_0.
      change (find_fence seg) with (Some 0). cbv beta iota zeta.
      change (drop (0 + 0 + 3) seg) with (body ++ fence).
      by rewrite Hbody, Hlen. }
    assert (E' : search_code seg (length seg) = None).
    { unfold search_code. by rewrite drop_all. }
    rewrite segments_from_step, E, segments_from_step, E'.
    assert (Hs : slice seg 0 (length seg) = seg).
    { unfold slice. rewrite drop_0, Nat.sub_0_r. apply firstn_all. }
    rewrite (Nat.ltb_irrefl (length seg)), Hs. reflexivity.
  - pose proof (preprocess_text_prose_has_no_block _ _ Hin) as E.
    rewrite (without_block _ E).
    pose proof (segments_nonempty text) as Hne.
    rewrite Forall_forall in Hne. specialize (Hne _ Hin). simpl in Hne.
    by destruct seg.
Qed.

Lemma preprocess_text_segment_fixpoint_witness :
  (Code, lit "```c```") ∈ preprocess_text (lit "ab```c```d")
  /\ preprocess_text (lit "```c```") = [(Code, lit "```c```")].
Proof.
  assert (H : (Code, lit "```c```") ∈ preprocess_text (lit "ab```c```d")).
  { apply list_elem_of_In. vm_compute. auto. }
  split; [exact H|].
  exact (preprocess_text_segment_fixpoint (lit "ab```c```d")
           (Code, lit "```c```") H).
Defined.

(** ** Sentence Splitter: windows *)

(** A text no longer than the window is handed to the model once, whole,
    and the sentences come back stripped; on the empty text the model is
    not called at all. *)
Theorem split_into_sentences_single_window model fuel (text : str) max_length :
  length text <= effective_max_length max_length ->
  split_into_sentences (Some model) (S fuel) text max_length
  = Some (if nonempty text then map strip (model text) else []).
Proof. intros H. unfold split_into_sentences. by apply split_loop_single_window. Qed.

Lemma split_into_sentences_single_window_witness :
  length (lit "One. Two") <= effective_max_length (Some 8)
  /\ split_into_sentences (Some period_sents) 1 (lit "One. Two") (Some 8)
     = Some (if nonempty (lit "One. Two")
             then map strip (period_sents (lit "One. Two")) else []).
Proof.
  assert (H : length (lit "One. Two") <= effective_max_length (Some 8))
    by (vm_compute; lia).
  split; [exact H|].
  exact (split_into_sentences_single_window period_sents 0 (lit "One. Two")
           (Some 8) H).
Defined.

(** A window lies between its start and the end of the text, is the slice
    between its start and its end, and holds at most [max_length]
    characters. *)
Lemma window_bounds (text : str) max_length current_start :
  current_start <= length text ->
  let w := window text max_length current_start in
  current_start <= w.1 <= length text
  /\ w.2 = slice text current_start w.1
  /\ length w.2 <= max_length.
Proof.
  intros Hcs. unfold window.
  set (ce := Nat.min (current_start + max_length) (length text)).
  assert (Hce : current_start <= ce <= length text) by lia.
  assert (Hsub : length (slice text current_start ce) = ce - current_start)
    by (apply length_slice; lia).
  destruct (ce <? length text).
  - destruct (rfind SPACE (slice text current_start ce)) as [k|] eqn:E; simpl.
    + apply rfind_lt in E. rewrite Hsub in E.
      repeat split; try lia. rewrite length_slice by lia. lia.
    + repeat split; lia.
  - simpl. repeat split; lia.
Qed.

Lemma slice_drop (t : str) a b :
  a <= b -> slice t a b ++ drop b t = drop a t.
Proof.
  intros Hab. unfold slice.
  replace (drop b t) with (drop (b - a) (drop a t)).
  - apply take_drop.
  - rewrite drop_drop. f_equal. lia.
Qed.

Lemma split_loop_windows_from model fuel (text : str) max_length :
  forall current_start acc sentences,
    current_start <= length text ->
    split_loop model fuel text max_length current_start acc = Some sentences ->
    exists windows : list str,
      concat windows = drop current_start text
      /\ Forall (fun w : str => length w <= max_length) windows
      /\ sentences = acc ++ flat_map (fun w => map strip (model w)) windows.
Proof.
  induction fuel as [|fuel IH]; intros cs acc sentences Hcs; simpl.
  - destruct (Nat.ltb_spec cs (length text)); [discriminate|].
    intros [= <-]. exists []. rewrite drop_ge by lia.
    split; [done|]. split; [constructor|]. by rewrite app_nil_r.
  - destruct (Nat.ltb_spec cs (length text)).
    + pose proof (window_bounds text max_length cs Hcs) as Hw.
      destruct (window text max_length cs) as [ce sub]. simpl in Hw.
      destruct Hw as (Hce & -> & Hlen).
      intros Hrun. apply IH in Hrun as (windows & Hc & Hall & ->); [|lia].
      exists (slice text cs ce :: windows). split; [|split].
      * simpl. rewrite Hc. apply slice_drop. lia.
      * by constructor.
      * simpl. by rewrite <- app_assoc.
    + intros [= <-]. exists []. rewrite drop_ge by lia.
      split; [done|]. split; [constructor|]. by rewrite app_nil_r.
Qed.

(** When the splitter returns, the windows it handed to the model are
    consecutive pieces of the text: put end to end they are the text, no
    character is lost or repeated between two windows, none is longer
    than [max_length], and the result is the stripped sentences of each
    window, in order. *)
Theorem split_into_sentences_windows model fuel (text : str) max_length sentences :
  split_into_sentences (Some model) fuel text max_length = Some sentences ->
  exists windows : list str,
    concat windows = text
    /\ Forall (fun w : str => length w <= effective_max_length max_length) windows
    /\ sentences = flat_map (fun w => map strip (model w)) windows.
Proof.
  unfold split_into_sentences. intros H.
  apply split_loop_windows_from in H as (windows & Hc & Hall & ->); [|lia].
  exists windows. by rewrite drop_0 in Hc.
Qed.

Lemma split_into_sentences_windows_witness :
  split_into_sentences (Some (fun t => [t])) 5 (lit "ab cd efg") (Some 4)
  = Some [lit "ab"; lit "cd"; lit "efg"]
  /\ exists windows : list str,
      concat windows = lit "ab cd efg"
      /\ Forall (fun w : str => length w <= effective_max_length (Some 4)) windows
      /\ [lit "ab"; lit "cd"; lit "efg"]
         = flat_map (fun w => map strip ((fun t => [t]) w)) windows.
Proof.
  assert (H : split_into_sentences (Some (fun t => [t])) 5 (lit "ab cd efg")
                (Some 4) = Some [lit "ab"; lit "cd"; lit "efg"])
    by (vm_compute; reflexivity).
  split; [exact H|].
  exact (split_into_sentences_windows (fun t => [t]) 5 (lit "ab cd efg")
           (Some 4) [lit "ab"; lit "cd"; lit "efg"] H).
Defined.

(** *** When the window loop returns *)

Lemma effective_max_length_pos max_length : 0 < effective_max_length max_length.
Proof.
  unfold effective_max_length, default_max_length.
  destruct max_length as [[|n]|]; lia.
Qed.

Lemma window_progress (text : str) max_length current_start :
  0 < max_length ->
  (forall i, text !! i = Some SPACE -> i + max_length < length text ->
             exists j, i < j < i + max_length /\ text !! j = Some SPACE) ->
  current_start < length text ->
  current_start < (window text max_length current_start).1.
Proof.
  intros Hml Hspaces Hcs. unfold window.
  set (ce := Nat.min (current_start + max_length) (length text)).
  destruct (Nat.ltb_spec ce (length text)) as [Hlt|Hge]; [|simpl; lia].
  assert (Hce : ce = current_start + max_length) by lia.
  destruct (rfind SPACE (slice text current_start ce)) as [k|] eqn:E;
    [|simpl; lia].
  simpl. destruct k as [|k]; [|lia]. exfalso.
  apply rfind_Some in E as [E0 Eafter].
  rewrite lookup_slice, Nat.add_0_r in E0 by lia.
  destruct (Hspaces current_start E0) as (j & Hj & Ej); [lia|].
  apply (Eafter (j - current_start)); [lia|].
  rewrite lookup_slice by lia. rewrite <- Ej. f_equal. lia.
Qed.

Lemma split_loop_returns_from model (text : str) max_length :
  0 < max_length ->
  (forall i, text !! i = Some SPACE -> i + max_length < length text ->
             exists j, i < j < i + max_length /\ text !! j = Some SPACE) ->
  forall fuel current_start acc,
    current_start <= length text ->
    length text - current_start <= fuel ->
    exists sentences,
      split_loop model fuel text max_length current_start acc = Some sentences.
Proof.
  intros Hml Hspaces. induction fuel as [|fuel IH]; intros cs acc Hcs Hfuel; simpl.
  - destruct (Nat.ltb_spec cs (length text)); [lia|eauto].
  - destruct (Nat.ltb_spec cs (length text)) as [Hlt|]; [|eauto].
    pose proof (window_progress text max_length cs Hml Hspaces Hlt) as Hp.
    pose proof (window_bounds text max_length cs Hcs) as Hw.
    destruct (window text max_length cs) as [ce sub]. simpl in *.
    apply IH; lia.
Qed.

(** The splitter returns on every text in which each space is followed by
    another space less than a window further on, unless the text ends
    within that window (no word is as long as a window); it does so in at
    most as many iterations as the text has characters. *)
Theorem split_into_sentences_returns model fuel (text : str) max_length :
  (forall i, text !! i = Some SPACE ->
             i + effective_max_length max_length < length text ->
             exists j, i < j < i + effective_max_length max_length
                       /\ text !! j = Some SPACE) ->
  length text <= fuel ->
  exists sentences,
    split_into_sentences (Some model) fuel text max_length = Some sentences.
Proof.
  intros Hspaces Hfuel. unfold split_into_sentences.
  apply split_loop_returns_from; try lia; [|exact Hspaces].
  apply effective_max_length_pos.
Qed.

Lemma split_into_sentences_returns_witness :
  (forall i, lit "ab cd efg" !! i = Some SPACE ->
             i + effective_max_length (Some 4) < length (lit "ab cd efg") ->
             exists j, i < j < i + effective_max_length (Some 4)
                       /\ lit "ab cd efg" !! j = Some SPACE)
  /\ length (lit "ab cd efg") <= 9
  /\ exists sentences,
      split_into_sentences (Some period_sents) 9 (lit "ab cd efg") (Some 4)
      = Some sentences.
Proof.
  assert (H : forall i, lit "ab cd efg" !! i = Some SPACE ->
                i + effective_max_length (Some 4) < length (lit "ab cd efg") ->
                exists j, i < j < i + effective_max_length (Some 4)
                          /\ lit "ab cd efg" !! j = Some SPACE).
  { intros i Hi Hlen. simpl in Hlen.
    destruct i as [|[|[|[|[|i]]]]]; try (vm_compute in Hi; discriminate Hi);
      [exists 5; split; [simpl; lia|reflexivity] | lia]. }
  assert (Hf : length (lit "ab cd efg") <= 9) by (simpl; lia).
  split; [exact H|]. split; [exact Hf|].
  exact (split_into_sentences_returns period_sents 9 (lit "ab cd efg")
           (Some 4) H Hf).
Defined.

Lemma rfind_first (c : char) (s : str) :
  s !! 0 = Some c -> (forall j, 0 < j -> s !! j <> Some c) -> rfind c s = Some 0.
Proof.
  destruct s as [|x s]; [discriminate|]. intros [= ->] Hafter.
  cbn [rfind]. destruct (rfind c s) as [k|] eqn:E.
  - apply rfind_Some in E as [E _]. by destruct (Hafter (S k) ltac:(lia)).
  - by rewrite N.eqb_refl.
Qed.

(** The splitter never returns on a text that is longer than a window,
    starts with a space and has no other space in its first window: the
    first window is cut back to nothing and the loop stays where it is. *)
Theorem split_into_sentences_stuck model fuel (text : str) max_length :
  effective_max_length max_length < length text ->
  text !! 0 = Some SPACE ->
  (forall j, 0 < j < effective_max_length max_length -> text !! j <> Some SPACE) ->
  split_into_sentences (Some model) fuel text max_length = None.
Proof.
  intros Hlen H0 Hafter. unfold split_into_sentences.
  pose proof (effective_max_length_pos max_length) as Hpos.
  apply split_loop_stuck; [lia|].
  apply window_no_progress; [lia|].
  apply rfind_first.
  - rewrite lookup_slice by lia. exact H0.
  - intros j Hj Hc.
    destruct (decide (j < effective_max_length max_length)) as [Hlt|Hge].
    + rewrite lookup_slice in Hc by lia. by apply (Hafter j).
    + apply lookup_lt_Some in Hc. rewrite length_slice in Hc by lia. lia.
Qed.

Lemma split_into_sentences_stuck_witness :
  effective_max_length (Some 3) < length (lit " aaaa")
  /\ lit " aaaa" !! 0 = Some SPACE
  /\ (forall j, 0 < j < effective_max_length (Some 3) ->
                lit " aaaa" !! j <> Some SPACE)
  /\ split_into_sentences (Some period_sents) 7 (lit " aaaa") (Some 3) = None.
Proof.
  assert (H1 : effective_max_length (Some 3) < length (lit " aaaa"))
    by (simpl; lia).
  assert (H2 : lit " aaaa" !! 0 = Some SPACE) by reflexivity.
  assert (H3 : forall j, 0 < j < effective_max_length (Some 3) ->
                 lit " aaaa" !! j <> Some SPACE).
  { intros j Hj. simpl in Hj.
    destruct j as [|[|[|j]]]; try lia; discriminate. }
  repeat (split; [assumption|]).
  exact (split_into_sentences_stuck period_sents 7 (lit " aaaa") (Some 3)
           H1 H2 H3).
Defined.

(** ** Chunk Assembler: the sequence of runs *)

Section AssemblerRuns.

Context (encode : str -> option (list N)) (decode : list N -> str).
Context (nlp : option (str -> list str)).
Context (max_tokens overlap_tokens : nat).

Local Abbreviation count := (count encode).
Local Abbreviation compute_overlap := (compute_overlap encode decode overlap_tokens).
Local Abbreviation unit_step :=
  (unit_step encode decode max_tokens overlap_tokens).
Local Abbreviation units_loop :=
  (units_loop encode decode max_tokens overlap_tokens).
Local Abbreviation segments_loop :=
  (segments_loop encode decode nlp max_tokens overlap_tokens).
Local Abbreviation chunk_segments :=
  (chunk_segments encode decode nlp max_tokens overlap_tokens).
Local Abbreviation units_of := (units_of nlp).
Local Abbreviation flushes := (flushes max_tokens).
Local Abbreviation unit_tokens := (unit_tokens encode).
Local Abbreviation run_tokens := (run_tokens encode).
Local Abbreviation run_chunk := (run_chunk encode).
Local Abbreviation run_ok := (run_ok encode max_tokens).
Local Abbreviation emitted := (emitted encode).
Local Abbreviation inv := (inv encode max_tokens).
Local Abbreviation starts_after := (starts_after encode decode overlap_tokens).
Local Abbreviation chained := (chained encode decode overlap_tokens).
Local Abbreviation well_chained := (well_chained encode decode overlap_tokens).

(** One step either extends the run under construction or closes it and
    starts a new run with the unit. *)
Lemma unit_step_cases st closed cur u st' :
  inv st closed cur ->
  unit_step st u = Ok st' ->
  (flushes st (unit_tokens u) = false /\ inv st' closed (extend cur u))
  \/ (flushes st (unit_tokens u) = true
      /\ exists new, members new = [u] /\ starts_after cur new
                     /\ inv st' (closed ++ [cur]) new).
Proof.
  intros (Hch & Htext & Htok & Hclosed & Hcur) Hstep.
  assert (Hemit : emit st = run_chunk cur).
  { unfold emit, Spec.run_chunk. by rewrite Htext, Htok. }
  destruct u as [[] s]; simpl in Hstep.
  - apply (code_step_Ok encode max_tokens) in Hstep as (encoded & Henc & ->).
    assert (Hcount : unit_tokens (Code, s) = length encoded).
    { unfold Spec.unit_tokens, Assembler.count. simpl. by rewrite Henc. }
    rewrite <- Hcount.
    destruct (flushes st (unit_tokens (Code, s))) eqn:Hfl; [right|left];
      (split; [reflexivity|]).
    + exists {| carried := []; carried_tokens := 0; members := [(Code, s)] |}.
      split; [reflexivity|]. split; [done|].
      refine (conj _ (conj _ (conj _ (conj _ _)))); simpl.
      * by rewrite map_app, Hch, Hemit.
      * unfold run_text, piece. simpl. by rewrite app_nil_r.
      * unfold Spec.run_tokens. simpl. lia.
      * apply Forall_app. split; [exact Hclosed|]. by constructor.
      * apply run_ok_fresh. by left.
    + refine (conj _ (conj _ (conj _ (conj _ _)))); simpl.
      * exact Hch.
      * unfold extend. rewrite run_text_snoc, Htext. reflexivity.
      * unfold extend. rewrite run_tokens_snoc, Htok. reflexivity.
      * exact Hclosed.
      * by eapply run_ok_snoc.
  - apply (sentence_step_Ok encode decode max_tokens overlap_tokens)
      in Hstep as (encoded & Henc & Hstep).
    assert (Hcount : unit_tokens (Text, s) = length encoded).
    { unfold Spec.unit_tokens, Assembler.count. simpl. by rewrite Henc. }
    rewrite <- Hcount in Hstep. fold (flushes st (unit_tokens (Text, s))) in Hstep.
    destruct (flushes st (unit_tokens (Text, s))) eqn:Hfl; [right|left];
      (split; [reflexivity|]).
    + destruct Hstep as (overlap & encoded_overlap & Hco & Hov & ->).
      assert (Hc : count overlap = length encoded_overlap).
      { unfold Assembler.count. by rewrite Hov. }
      exists {| carried := overlap; carried_tokens := length encoded_overlap;
                members := [(Text, s)] |}.
      split; [reflexivity|]. split.
      { unfold Shapes.starts_after. simpl. by rewrite <- Htext. }
      refine (conj _ (conj _ (conj _ (conj _ _)))); simpl.
      * by rewrite map_app, Hch, Hemit.
      * unfold run_text, piece. simpl. by rewrite app_nil_r.
      * unfold Spec.run_tokens. simpl. lia.
      * apply Forall_app. split; [exact Hclosed|]. by constructor.
      * apply run_ok_fresh. by right.
    + subst st'. refine (conj _ (conj _ (conj _ (conj _ _)))); simpl.
      * exact Hch.
      * unfold extend. rewrite run_text_snoc, Htext. reflexivity.
      * unfold extend. rewrite run_tokens_snoc, Htok. reflexivity.
      * exact Hclosed.
      * by eapply run_ok_snoc.
Qed.

Lemma default_last_cons {A} (p q : A) (l : list A) :
  default p (last (q :: l)) = default q (last l).
Proof.
  revert p q. induction l as [|x l IH]; intros p q; [reflexivity|].
  change (last (q :: x :: l)) with (last (x :: l)). by rewrite !(IH _ x).
Qed.

Lemma chained_snoc p rs r :
  chained p (rs ++ [r]) <->
  chained p rs /\ members (default p (last rs)) <> []
  /\ starts_after (default p (last rs)) r.
Proof.
  revert p. induction rs as [|q rs IH]; intros p.
  - simpl. tauto.
  - cbn [app Shapes.chained]. rewrite IH, default_last_cons. tauto.
Qed.

Lemma starts_after_extend prev cur u :
  members cur <> [] ->
  starts_after prev cur -> starts_after prev (extend cur u).
Proof.
  unfold Shapes.starts_after, extend. simpl.
  by destruct (members cur) as [|[[] s] l].
Qed.

Lemma chained_members p rs :
  chained p rs -> Forall (fun r => members r <> []) rs.
Proof.
  revert p. induction rs as [|q rs IH]; intros p; [constructor|].
  intros (_ & Hq & Hrest). constructor; [|by eapply IH].
  unfold Shapes.starts_after in Hq. by destruct (members q).
Qed.

Lemma chained_extend_last p rs cur u :
  chained p (rs ++ [cur]) -> chained p (rs ++ [extend cur u]).
Proof.
  rewrite !chained_snoc. intros (Hrs & Hm & Hs). split; [exact Hrs|].
  split; [exact Hm|]. apply starts_after_extend; [|exact Hs].
  unfold Shapes.starts_after in Hs. by destruct (members cur).
Qed.

Lemma well_chained_extend closed cur u :
  well_chained (closed ++ [cur]) -> well_chained (closed ++ [extend cur u]).
Proof.
  destruct closed as [|r0 closed]; simpl.
  - tauto.
  - intros (H1 & H2 & H3). repeat split; try assumption.
    by apply chained_extend_last.
Qed.

Lemma well_chained_last_members closed cur :
  well_chained (closed ++ [cur]) -> run_text cur <> [] -> members cur <> [].
Proof.
  destruct closed as [|r0 closed]; simpl.
  - intros (Hc & _ & _) Hne Hm. apply Hne. unfold run_text. by rewrite Hc, Hm.
  - intros (_ & _ & Hch) _. apply chained_members in Hch.
    rewrite Forall_app in Hch. destruct Hch as [_ Hch]. by inversion Hch.
Qed.

Lemma well_chained_flush closed cur new :
  well_chained (closed ++ [cur]) ->
  members cur <> [] -> starts_after cur new ->
  well_chained ((closed ++ [cur]) ++ [new]).
Proof.
  destruct closed as [|r0 closed]; simpl.
  - intros (H1 & H2 & _) Hm Hs. tauto.
  - intros (H1 & H2 & H3) Hm Hs. repeat split; try assumption.
    apply chained_snoc. rewrite last_snoc. simpl. tauto.
Qed.

Lemma nonempty_true (s : str) : nonempty s = true -> s <> [].
Proof. by destruct s. Qed.

Lemma unit_step_chain st closed cur u st' :
  inv st closed cur -> well_chained (closed ++ [cur]) ->
  unit_step st u = Ok st' ->
  exists closed' cur',
    inv st' closed' cur' /\ well_chained (closed' ++ [cur'])
    /\ concat (map members closed') ++ members cur'
       = (concat (map members closed) ++ members cur) ++ [u].
Proof.
  intros Hinv Hwc Hstep.
  destruct (unit_step_cases _ _ _ _ _ Hinv Hstep)
    as [[_ Hinv']|(Hfl & new & Hnew & Hstart & Hinv')].
  - exists closed, (extend cur u). split; [exact Hinv'|].
    split; [by apply well_chained_extend|]. simpl. by rewrite app_assoc.
  - exists (closed ++ [cur]), new. split; [exact Hinv'|]. split.
    + apply well_chained_flush; [exact Hwc| |exact Hstart].
      apply (well_chained_last_members closed); [exact Hwc|].
      destruct Hinv as (_ & Htext & _). rewrite <- Htext.
      apply nonempty_true. unfold Spec.flushes in Hfl.
      by apply andb_true_iff in Hfl as [_ Hfl].
    + rewrite map_app, concat_app, Hnew. simpl. by rewrite app_nil_r.
Qed.

Lemma units_loop_chain units : forall st closed cur st',
  inv st closed cur -> well_chained (closed ++ [cur]) ->
  units_loop st units = Ok st' ->
  exists closed' cur',
    inv st' closed' cur' /\ well_chained (closed' ++ [cur'])
    /\ concat (map members closed') ++ members cur'
       = (concat (map members closed) ++ members cur) ++ units.
Proof.
  induction units as [|u units IH]; intros st closed cur st' Hinv Hwc Hloop.
  - injection Hloop as <-. exists closed, cur. by rewrite app_nil_r.
  - simpl in Hloop. inv_bind Hloop.
    destruct (unit_step_chain _ _ _ _ _ Hinv Hwc Hx)
      as (closed1 & cur1 & Hinv1 & Hwc1 & Hu1).
    destruct (IH _ _ _ _ Hinv1 Hwc1 Hloop) as (closed2 & cur2 & Hinv2 & Hwc2 & Hu2).
    exists closed2, cur2. split; [exact Hinv2|]. split; [exact Hwc2|].
    rewrite Hu2, Hu1, <- app_assoc. reflexivity.
Qed.

(** The chunks returned are those of a chain of runs over the units. *)
Lemma chunk_segments_chain fuel segments units chunks :
  units_of fuel segments = Some units ->
  chunk_segments fuel segments = Ok chunks ->
  exists closed last,
    chunks = emitted closed last
    /\ concat (map members (closed ++ [last])) = units
    /\ Forall run_ok (closed ++ [last])
    /\ well_chained (closed ++ [last]).
Proof.
  intros Hunits Hrun. unfold Assembler.chunk_segments in Hrun. inv_bind Hrun.
  rewrite (segments_loop_units _ _ _ _ _ _ _ _ _ Hunits) in Hx.
  destruct (units_loop_chain _ _ _ _ _ (inv_initial encode max_tokens)
              ltac:(by simpl) Hx)
    as (closed & last & (Hch & Htext & Htok & Hclosed & Hlast) & Hwc & Hu).
  exists closed, last. injection Hrun as <-. split; [|split; [|split]].
  - unfold finish, Spec.emitted, emit, Spec.run_chunk.
    rewrite Hch, Htext, Htok. destruct (nonempty _); [reflexivity|].
    by rewrite app_nil_r.
  - rewrite map_app, concat_app. simpl. rewrite app_nil_r. exact Hu.
  - apply Forall_app. split; [exact Hclosed|]. by constructor.
  - exact Hwc.
Qed.

Lemma chained_adjacent p rs : forall i r r',
  chained p rs ->
  (p :: rs) !! i = Some r -> (p :: rs) !! S i = Some r' ->
  starts_after r r'.
Proof.
  revert p. induction rs as [|q rs IH]; intros p i r r' Hch Hr Hr'.
  - destruct i; simpl in Hr'; by rewrite ?lookup_nil in Hr'.
  - destruct Hch as (_ & Hq & Hrest). destruct i as [|i].
    + injection Hr as <-. by injection Hr' as <-.
    + by apply (IH q i).
Qed.

Lemma well_chained_adjacent rs i r r' :
  well_chained rs -> rs !! i = Some r -> rs !! S i = Some r' ->
  starts_after r r'.
Proof.
  destruct rs as [|p rs]; [done|]. intros (_ & _ & Hch). by apply chained_adjacent.
Qed.

(** What the overlap is. The text of every chunk is the trimmed text of
    its run; the run of a chunk whose first unit is a sentence starts
    with the overlap computed on the untrimmed text of the run before it
    (the decoded last [overlap_tokens] tokens, or fewer), and the run of
    a chunk whose first unit is a verbatim segment carries nothing. *)
Theorem chunk_segments_overlap_chain fuel segments units chunks :
  units_of fuel segments = Some units ->
  chunk_segments fuel segments = Ok chunks ->
  exists runs : list run,
    concat (map members runs) = units
    /\ (forall i c, chunks !! i = Some c ->
          exists r, runs !! i = Some r /\ text c = strip (run_text r))
    /\ (forall r, runs !! 0 = Some r -> carried r = [])
    /\ forall i r r', runs !! i = Some r -> runs !! S i = Some r' ->
         match members r' with
         | (Code, _) :: _ => carried r' = []
         | (Text, _) :: _ => compute_overlap (run_text r) = Ok (carried r')
         | [] => False
         end.
Proof.
  intros Hunits Hrun.
  destruct (chunk_segments_chain _ _ _ _ Hunits Hrun)
    as (closed & last & -> & Hu & _ & Hwc).
  exists (closed ++ [last]). split; [exact Hu|]. split; [|split].
  - intros i c Hc.
    apply (emitted_lookup encode) in Hc as (r & Hr & ->). by exists r.
  - intros r Hr. destruct (closed ++ [last]) as [|r0 rs]; [done|].
    injection Hr as <-. by destruct Hwc.
  - intros i r r' Hr Hr'.
    pose proof (well_chained_adjacent _ _ _ _ Hwc Hr Hr') as Hs.
    unfold Shapes.starts_after in Hs.
    destruct (members r') as [|[[] s] l]; tauto.
Qed.

Lemma length_concat_nonempty {A} (gs : list (list A)) :
  Forall (fun g => g <> []) gs -> length gs <= length (concat gs).
Proof.
  induction 1 as [|g gs Hg _ IH]; simpl; [lia|].
  rewrite length_app. destruct g; [done|]. simpl. lia.
Qed.

Lemma well_chained_closed_members closed last :
  well_chained (closed ++ [last]) -> Forall (fun r => members r <> []) closed.
Proof.
  intros Hwc. destruct closed as [|r0 closed]; [constructor|].
  destruct Hwc as (_ & _ & Hch).
  pose proof (chained_members _ _ Hch) as Hall.
  apply Forall_app in Hall as [Hall _].
  constructor; [|exact Hall].
  destruct closed as [|r1 closed]; simpl in Hch; tauto.
Qed.

(** A chunk is the chunk of the run of the same rank, and that run holds
    a unit. *)
Lemma emitted_lookup_members closed last i c :
  well_chained (closed ++ [last]) ->
  emitted closed last !! i = Some c ->
  exists r, (closed ++ [last]) !! i = Some r /\ c = run_chunk r
            /\ members r <> [].
Proof.
  intros Hwc Hc.
  destruct (emitted_lookup encode _ _ _ _ Hc) as (r & Hr & ->).
  exists r. split; [exact Hr|]. split; [reflexivity|].
  apply lookup_app_Some in Hr as [Hr|[Hi Hr]].
  - pose proof (well_chained_closed_members _ _ Hwc) as Hall.
    exact (proj1 (Forall_lookup _ _) Hall i r Hr).
  - destruct (i - length closed) as [|k] eqn:Ek;
      [|by rewrite lookup_cons, lookup_nil in Hr].
    injection Hr as <-.
    apply (well_chained_last_members closed); [exact Hwc|].
    intros Hnil. unfold Spec.emitted in Hc.
    rewrite lookup_app_r in Hc by (rewrite length_map; lia).
    rewrite length_map, Ek in Hc. unfold Spec.run_chunk in Hc.
    rewrite Hnil in Hc. discriminate Hc.
Qed.

(** What a run carries, by its rank in the chain. *)
Lemma well_chained_lookup rs i r :
  well_chained rs -> rs !! i = Some r ->
  match i with
  | 0 => carried r = [] /\ carried_tokens r = 0
  | S j => exists prev, rs !! j = Some prev /\ starts_after prev r
  end.
Proof.
  intros Hwc Hr. destruct i as [|j].
  - destruct rs as [|r0 rs]; [done|]. injection Hr as <-.
    destruct Hwc as (H1 & H2 & _). by split.
  - destruct (rs !! j) as [prev|] eqn:Hprev.
    + exists prev. split; [reflexivity|]. by eapply well_chained_adjacent.
    + apply lookup_ge_None in Hprev. apply lookup_lt_Some in Hr. lia.
Qed.

Lemma isspace_separators : isspace NEWLINE = true /\ isspace SPACE = true.
Proof. split; reflexivity. Qed.

Lemma strip_cons_space (x : char) (s : str) :
  isspace x = true -> strip (x :: s) = strip s.
Proof. intros Hx. unfold strip. simpl. by rewrite Hx. Qed.

Lemma pieces_explicit (us : list (segment_type * str)) :
  concat (map piece us)
  = concat (map (fun u : segment_type * str =>
                   (match u.1 with Code => NEWLINE | Text => SPACE end) :: u.2)
                us).
Proof.
  f_equal. apply map_ext. intros [[] s]; reflexivity.
Qed.

(** C3 (as the code has it). No unit is split. Whenever the tokenizer
    accepts every text, [chunk_segments] returns; and the chunks it
    returns are those of a chain of runs over the units: the units of
    the stream are cut, in order, into consecutive non-empty groups, one
    per chunk, so that each unit is appended to exactly one chunk; the
    first run carries no text, a run that starts with a verbatim segment
    carries none, and a run that starts with a sentence carries the
    overlap computed from the untrimmed text of the run before it (this
    is how the text of a unit can stand a second time, in the chunk that
    follows its own); the text of a chunk is the trimmed concatenation
    of what its run carries and of its whole units, each behind its
    separator, and a unit that is not empty and has no whitespace at its
    ends (as every unit of the pipeline, see [pipeline_units_trimmed])
    stands whole in the text of its chunk. A unit whose own token count
    exceeds [max_tokens] comes first in its group (what was pending has
    been flushed), and the chunk that holds it, untruncated, has a
    [token_count] above [max_tokens]. *)
Theorem chunk_segments_never_splits_a_unit fuel segments units :
  units_of fuel segments = Some units ->
  ((forall s, is_Some (encode s)) ->
   exists chunks, chunk_segments fuel segments = Ok chunks)
  /\ forall chunks,
      chunk_segments fuel segments = Ok chunks ->
      exists closed last,
        chunks = emitted closed last
        /\ concat (map members (closed ++ [last])) = units
        /\ well_chained (closed ++ [last])
        /\ (forall i c, chunks !! i = Some c ->
              exists r,
                (closed ++ [last]) !! i = Some r
                /\ members r <> []
                /\ text c = strip (carried r ++ concat (map piece (members r)))
                /\ token_count c
                   = carried_tokens r + sum_list_with unit_tokens (members r))
        /\ (forall i r u, (closed ++ [last]) !! i = Some r -> u ∈ members r ->
              (max_tokens < unit_tokens u -> exists rest, members r = u :: rest)
              /\ (u.2 <> [] -> strip u.2 = u.2 ->
                  exists c a b,
                    chunks !! i = Some c /\ text c = a ++ u.2 ++ b
                    /\ (max_tokens < unit_tokens u ->
                        max_tokens < token_count c))).
Proof.
  intros Hunits. split.
  { intros Htot.
    by eapply (chunk_segments_total encode decode nlp max_tokens overlap_tokens). }
  intros chunks Hrun.
  destruct (chunk_segments_chain _ _ _ _ Hunits Hrun)
    as (closed & last & -> & Hu & Hok & Hwc).
  exists closed, last. split; [reflexivity|]. split; [exact Hu|].
  split; [exact Hwc|]. split.
  - intros i c Hc.
    destruct (emitted_lookup_members _ _ _ _ Hwc Hc) as (r & Hr & -> & Hm).
    exists r. split; [exact Hr|]. split; [exact Hm|]. split; reflexivity.
  - intros i r u Hr Hin.
    pose proof (proj1 (Forall_lookup _ _) Hok i r Hr) as (_ & Htl & _).
    split.
    + intros Hbig. destruct (members r) as [|u0 tl] eqn:Em; [by inversion Hin|].
      apply elem_of_cons in Hin as [->|Hin]; [eauto|].
      simpl in Htl. rewrite Forall_forall in Htl. specialize (Htl u Hin). lia.
    + intros Hne Hst.
      destruct (unit_in_run_text r u Hin) as (a & b & Hrt).
      destruct (strip_keeps a u.2 b Hne Hst) as (a' & b' & Hs).
      exists (run_chunk r), a', b'. split; [|split].
      * apply emitted_lookup_inv; [exact Hr|]. rewrite Hrt, Hs.
        destruct a'; [|reflexivity]. destruct u.2; [done|reflexivity].
      * simpl. by rewrite Hrt.
      * intros Hbig. simpl. pose proof (unit_tokens_le_run encode r u Hin). lia.
Qed.

(** C5 (as the code has it). The chunks returned are those of a chain of
    runs over the units, and the [token_count] stored with a chunk is the
    count recorded for the text carried into its run plus the sum of the
    tokenizer's counts of the units appended, each counted on its own;
    the separators and the final trimming are not counted. The count
    recorded for the text carried is 0 for the first chunk and for a
    chunk whose first unit is a verbatim segment, where nothing is
    carried; for a later chunk whose first unit is a sentence it is the
    tokenizer's count of the overlap computed from the untrimmed text of
    the run before it. *)
Theorem token_count_is_sum_of_unit_counts fuel segments units chunks :
  units_of fuel segments = Some units ->
  chunk_segments fuel segments = Ok chunks ->
  exists closed last,
    chunks = emitted closed last
    /\ concat (map members (closed ++ [last])) = units
    /\ forall i c, chunks !! i = Some c ->
         exists r, (closed ++ [last]) !! i = Some r
           /\ members r <> []
           /\ text c = strip (run_text r)
           /\ token_count c
              = carried_tokens r + sum_list_with unit_tokens (members r)
           /\ match i with
              | 0 => carried r = [] /\ carried_tokens r = 0
              | S j =>
                  exists prev,
                    (closed ++ [last]) !! j = Some prev
                    /\ match members r with
                       | (Code, _) :: _ =>
                           carried r = [] /\ carried_tokens r = 0
                       | (Text, _) :: _ =>
                           compute_overlap (run_text prev) = Ok (carried r)
                           /\ carried_tokens r = count (carried r)
                       | [] => False
                       end
              end.
Proof.
  intros Hunits Hrun.
  destruct (chunk_segments_chain _ _ _ _ Hunits Hrun)
    as (closed & last & -> & Hu & _ & Hwc).
  exists closed, last. split; [reflexivity|]. split; [exact Hu|].
  intros i c Hc.
  destruct (emitted_lookup_members _ _ _ _ Hwc Hc) as (r & Hr & -> & Hm).
  exists r. split; [exact Hr|]. split; [exact Hm|].
  split; [reflexivity|]. split; [reflexivity|].
  exact (well_chained_lookup _ _ _ Hwc Hr).
Qed.

(** C9 (as the code has it). A step appends the unit behind exactly one
    separator character, a newline before a verbatim segment and a space
    before a sentence, to the chunk under construction or, after a
    flush, to the empty string (verbatim segment) or to the text carried
    over (sentence). Hence the text of a chunk is the trimmed
    concatenation of the text its run carries and of its units, each
    behind its separator; where nothing is carried, the separator of the
    first unit stands at the start and the trimming removes it. *)
Theorem unit_appended_behind_one_separator fuel segments units chunks :
  units_of fuel segments = Some units ->
  chunk_segments fuel segments = Ok chunks ->
  (forall st u st',
      unit_step st u = Ok st' ->
      exists base,
        current_chunk st'
        = base ++ [match u.1 with Code => NEWLINE | Text => SPACE end] ++ u.2
        /\ (base = current_chunk st
            \/ match u.1 with
               | Code => base = []
               | Text => base = overlap_text st'
               end))
  /\ exists closed last,
      chunks = emitted closed last
      /\ concat (map members (closed ++ [last])) = units
      /\ well_chained (closed ++ [last])
      /\ forall i c, chunks !! i = Some c ->
           exists r, (closed ++ [last]) !! i = Some r
             /\ text c
                = strip (carried r
                         ++ concat (map (fun u : segment_type * str =>
                                           (match u.1 with
                                            | Code => NEWLINE
                                            | Text => SPACE
                                            end) :: u.2)
                                        (members r)))
             /\ (carried r = [] ->
                 exists u rest,
                   members r = u :: rest
                   /\ text c
                      = strip (u.2
                               ++ concat (map (fun u : segment_type * str =>
                                                 (match u.1 with
                                                  | Code => NEWLINE
                                                  | Text => SPACE
                                                  end) :: u.2)
                                              rest))).
Proof.
  intros Hunits Hrun. split.
  { intros st u st'.
    apply (unit_step_appends_behind_separator encode decode
             max_tokens overlap_tokens). }
  destruct (chunk_segments_chain _ _ _ _ Hunits Hrun)
    as (closed & last & -> & Hu & _ & Hwc).
  exists closed, last. split; [reflexivity|]. split; [exact Hu|].
  split; [exact Hwc|].
  intros i c Hc.
  destruct (emitted_lookup_members _ _ _ _ Hwc Hc) as (r & Hr & -> & Hm).
  exists r. split; [exact Hr|]. split.
  - simpl. unfold run_text. by rewrite pieces_explicit.
  - intros Hnil. destruct (members r) as [|u rest] eqn:Em; [done|].
    exists u, rest. split; [reflexivity|].
    simpl. unfold run_text. rewrite Hnil, Em, <- pieces_explicit. simpl.
    destruct u as [[] s]; unfold piece at 1; simpl;
      apply strip_cons_space; reflexivity.
Qed.

(** The chunks returned are those of a chain of runs over the units in
    which every chunk has a run that holds at least one unit of its own,
    so that there are never more chunks than units. *)
Theorem chunk_segments_at_most_one_chunk_per_unit fuel segments units chunks :
  units_of fuel segments = Some units ->
  chunk_segments fuel segments = Ok chunks ->
  (exists closed last,
     chunks = emitted closed last
     /\ concat (map members (closed ++ [last])) = units
     /\ well_chained (closed ++ [last])
     /\ forall i c, chunks !! i = Some c ->
          exists r u rest,
            (closed ++ [last]) !! i = Some r
            /\ c = run_chunk r
            /\ members r = u :: rest)
  /\ length chunks <= length units.
Proof.
  intros Hunits Hrun.
  destruct (chunk_segments_chain _ _ _ _ Hunits Hrun)
    as (closed & last & -> & Hu & _ & Hwc).
  split.
  - exists closed, last. split; [reflexivity|]. split; [exact Hu|].
    split; [exact Hwc|]. intros i c Hc.
    destruct (emitted_lookup_members _ _ _ _ Hwc Hc) as (r & Hr & -> & Hm).
    destruct (members r) as [|u rest] eqn:Em; [done|].
    exists r, u, rest. by rewrite Em.
  - pose proof (well_chained_closed_members _ _ Hwc) as Hclosed.
    rewrite <- Hu. unfold Spec.emitted. rewrite length_app, length_map.
    rewrite map_app, concat_app, length_app. simpl. rewrite app_nil_r.
    assert (H1 : length closed <= length (concat (map members closed))).
    { rewrite <- (length_map members closed).
      apply length_concat_nonempty. by apply Forall_fmap. }
    destruct (nonempty (strip (run_text last))) eqn:Hne; simpl; [|lia].
    assert (Hm : members last <> []).
    { apply (well_chained_last_members closed); [exact Hwc|].
      intros H. rewrite H in Hne. discriminate. }
    destruct (members last); [done|]. simpl. lia.
Qed.

(** The chunks returned are those of a chain of runs over the units, and
    a chunk whose run holds two units or more is within the budget: only
    a chunk made of the text carried over and of one unit can exceed
    it. *)
Theorem budget_of_chunks_with_several_units fuel segments units chunks :
  units_of fuel segments = Some units ->
  chunk_segments fuel segments = Ok chunks ->
  exists closed last,
    chunks = emitted closed last
    /\ concat (map members (closed ++ [last])) = units
    /\ well_chained (closed ++ [last])
    /\ forall i c, chunks !! i = Some c ->
         exists r, (closed ++ [last]) !! i = Some r
           /\ c = run_chunk r
           /\ members r <> []
           /\ (2 <= length (members r) -> token_count c <= max_tokens).
Proof.
  intros Hunits Hrun.
  destruct (chunk_segments_chain _ _ _ _ Hunits Hrun)
    as (closed & last & -> & Hu & Hok & Hwc).
  exists closed, last. split; [reflexivity|]. split; [exact Hu|].
  split; [exact Hwc|]. intros i c Hc.
  destruct (emitted_lookup_members _ _ _ _ Hwc Hc) as (r & Hr & -> & Hm).
  exists r. split; [exact Hr|]. split; [reflexivity|]. split; [exact Hm|].
  pose proof (proj1 (Forall_lookup _ _) Hok i r Hr) as (_ & _ & [Hb|Hb]);
    simpl; lia.
Qed.

(** *** The budget, with the overlap counted *)

Lemma length_last_tokens (k : nat) (encoded : list N) :
  length (last_tokens (Nat.min k (length encoded)) encoded) <= k \/ k = 0.
Proof.
  unfold last_tokens.
  destruct (Nat.eqb_spec (Nat.min k (length encoded)) 0) as [E|E].
  - destruct k; [by right|]. left. lia.
  - left. rewrite length_drop. lia.
Qed.

Lemma starts_after_carried_tokens prev r :
  (0 < overlap_tokens -> forall ids, count (decode ids) <= length ids) ->
  encode [] = Some [] ->
  starts_after prev r -> carried_tokens r <= overlap_tokens.
Proof.
  intros Hrt Hnil. unfold Shapes.starts_after.
  destruct (members r) as [|[[] s] l]; [done|intros [_ ->]; lia|].
  intros [Hco ->]. unfold Assembler.compute_overlap in Hco.
  destruct (Nat.ltb_spec 0 overlap_tokens) as [Hpos|Hzero].
  - inv_bind Hco. injection Hco as <-.
    etransitivity; [apply (Hrt Hpos)|].
    destruct (length_last_tokens overlap_tokens x); lia.
  - injection Hco as <-. unfold Assembler.count. rewrite Hnil. simpl. lia.
Qed.

Lemma well_chained_carried_tokens rs i r :
  (0 < overlap_tokens -> forall ids, count (decode ids) <= length ids) ->
  encode [] = Some [] ->
  well_chained rs -> rs !! i = Some r -> carried_tokens r <= overlap_tokens.
Proof.
  intros Hrt Hnil Hwc Hr. destruct i as [|i].
  - destruct rs as [|r0 rs]; [done|]. injection Hr as <-.
    destruct Hwc as (_ & -> & _). lia.
  - destruct (rs !! i) as [prev|] eqn:Hprev.
    + eapply starts_after_carried_tokens; [exact Hrt|exact Hnil|].
      by eapply well_chained_adjacent.
    + apply lookup_ge_None in Hprev. apply lookup_lt_Some in Hr. lia.
Qed.

(** With a tokenizer that counts nothing for the empty text and never
    counts more tokens in a decoded text than were decoded, a chunk none
    of whose units exceeds [max_tokens] has a [token_count] of at most
    [max_tokens + overlap_tokens]. *)
Theorem chunk_segments_budget_with_overlap fuel segments units chunks :
  encode [] = Some [] ->
  (forall ids, count (decode ids) <= length ids) ->
  units_of fuel segments = Some units ->
  chunk_segments fuel segments = Ok chunks ->
  exists runs : list run,
    concat (map members runs) = units
    /\ forall i c, chunks !! i = Some c ->
         exists r, runs !! i = Some r
           /\ c = run_chunk r
           /\ (Forall (fun u => unit_tokens u <= max_tokens) (members r) ->
               token_count c <= max_tokens + overlap_tokens).
Proof.
  intros Hnil Hrt Hunits Hrun.
  destruct (chunk_segments_chain _ _ _ _ Hunits Hrun)
    as (closed & last & -> & Hu & Hok & Hwc).
  exists (closed ++ [last]). split; [exact Hu|].
  intros i c Hc. apply (emitted_lookup encode) in Hc as (r & Hr & ->).
  exists r. split; [exact Hr|]. split; [reflexivity|]. intros Hsmall.
  pose proof (proj1 (Forall_lookup _ _) Hok i r Hr) as (_ & _ & Hb).
  pose proof (well_chained_carried_tokens _ _ _ (fun _ => Hrt) Hnil Hwc Hr) as Hc.
  simpl. destruct Hb as [Hb|Hb]; [lia|].
  unfold Spec.run_tokens. destruct (members r) as [|u [|u' l]]; simpl in *; try lia.
  apply Forall_cons in Hsmall as [Hsmall _]. lia.
Qed.

(** Without overlap, and with a tokenizer that counts nothing for the
    empty text, the budget holds: a chunk none of whose units exceeds
    [max_tokens] has a [token_count] of at most [max_tokens]. *)
Theorem chunk_segments_budget_without_overlap fuel segments units chunks :
  overlap_tokens = 0 ->
  encode [] = Some [] ->
  units_of fuel segments = Some units ->
  chunk_segments fuel segments = Ok chunks ->
  exists runs : list run,
    concat (map members runs) = units
    /\ forall i c, chunks !! i = Some c ->
         exists r, runs !! i = Some r
           /\ c = run_chunk r
           /\ (Forall (fun u => unit_tokens u <= max_tokens) (members r) ->
               token_count c <= max_tokens).
Proof.
  intros Hzero Hnil Hunits Hrun.
  destruct (chunk_segments_chain _ _ _ _ Hunits Hrun)
    as (closed & last & -> & Hu & Hok & Hwc).
  exists (closed ++ [last]). split; [exact Hu|].
  intros i c Hc. apply (emitted_lookup encode) in Hc as (r & Hr & ->).
  exists r. split; [exact Hr|]. split; [reflexivity|]. intros Hsmall.
  pose proof (proj1 (Forall_lookup _ _) Hok i r Hr) as (_ & _ & Hb).
  assert (Hc : carried_tokens r <= overlap_tokens).
  { eapply well_chained_carried_tokens; [lia|exact Hnil|exact Hwc|exact Hr]. }
  simpl. destruct Hb as [Hb|Hb]; [lia|].
  unfold Spec.run_tokens. destruct (members r) as [|u [|u' l]]; simpl in *; try lia.
  apply Forall_cons in Hsmall as [Hsmall _]. lia.
Qed.

(** *** A stream that fits in the budget *)

Lemma units_loop_no_flush units : forall st cur st',
  inv st [] cur ->
  run_tokens cur + sum_list_with unit_tokens units <= max_tokens ->
  units_loop st units = Ok st' ->
  inv st' []
      {| carried := carried cur; carried_tokens := carried_tokens cur;
         members := members cur ++ units |}.
Proof.
  induction units as [|u units IH]; intros st cur st' Hinv Hsum Hloop.
  - injection Hloop as <-. rewrite app_nil_r. by destruct cur.
  - simpl in Hloop, Hsum. inv_bind Hloop.
    destruct (unit_step_cases _ _ _ _ _ Hinv Hx) as [[_ Hinv']|[Hfl _]].
    + apply (IH _ _ _ Hinv') in Hloop.
      * unfold extend in Hloop. simpl in Hloop. by rewrite <- app_assoc in Hloop.
      * unfold extend. rewrite run_tokens_snoc. lia.
    + exfalso. unfold Spec.flushes in Hfl.
      apply andb_true_iff in Hfl as [Hfl _]. apply Nat.ltb_lt in Hfl.
      destruct Hinv as (_ & _ & Htok & _). lia.
Qed.

(** A stream whose units count together at most [max_tokens] tokens is
    never flushed: it gives one chunk, made of all its units, or none
    when that text is blank. *)
Theorem chunk_segments_single_chunk fuel segments units chunks :
  units_of fuel segments = Some units ->
  chunk_segments fuel segments = Ok chunks ->
  sum_list_with unit_tokens units <= max_tokens ->
  chunks =
  if nonempty (strip (concat (map piece units)))
  then [ {| text := strip (concat (map piece units));
            token_count := sum_list_with unit_tokens units |} ]
  else [].
Proof.
  intros Hunits Hrun Hsum. unfold Assembler.chunk_segments in Hrun. inv_bind Hrun.
  rewrite (segments_loop_units _ _ _ _ _ _ _ _ _ Hunits) in Hx.
  apply (units_loop_no_flush _ _ _ _ (inv_initial encode max_tokens)) in Hx;
    [|unfold Spec.run_tokens; simpl; lia].
  destruct Hx as (Hch & Htext & Htok & _). injection Hrun as <-.
  unfold finish, emit. rewrite Hch, Htext, Htok.
  unfold run_text, Spec.run_tokens. simpl. reflexivity.
Qed.

(** *** Trimmed chunk texts *)

Lemma segments_loop_Ok_units fuel segments : forall st st',
  segments_loop fuel st segments = Ok st' ->
  exists units, units_of fuel segments = Some units.
Proof.
  induction segments as [|[k seg] rest IH]; intros st st' H; [by exists []|].
  simpl in H. inv_bind H. destruct (IH _ _ H) as [us' Hus'].
  cbn [Assembler.units_of]. rewrite Hus'. destruct k; simpl in *; [eauto|].
  destruct (split_into_sentences nlp fuel seg None); [eauto|discriminate].
Qed.

(** The text of every chunk is trimmed: it neither starts nor ends with
    whitespace. *)
Theorem chunk_segments_texts_trimmed fuel segments chunks :
  chunk_segments fuel segments = Ok chunks ->
  Forall (fun c => strip (text c) = text c) chunks.
Proof.
  intros Hrun.
  assert (exists units, units_of fuel segments = Some units) as [units Hunits].
  { unfold Assembler.chunk_segments in Hrun. inv_bind Hrun.
    by eapply segments_loop_Ok_units. }
  destruct (chunk_segments_chain _ _ _ _ Hunits Hrun)
    as (closed & last & -> & _).
  apply Forall_lookup. intros i c Hc.
  apply (emitted_lookup encode) in Hc as (r & _ & ->). simpl. apply strip_idem.
Qed.

(** *** Returning *)

(** [chunk_segments] returns on every stream whose segments fit in one
    window of the splitter, when the tokenizer accepts every text. *)
Theorem chunk_segments_returns fuel (segments : list segment) :
  (forall s, is_Some (encode s)) ->
  Forall (fun seg : segment => length seg.2 <= default_max_length) segments ->
  exists chunks, chunk_segments (S fuel) segments = Ok chunks.
Proof.
  intros Htot Hshort.
  destruct (units_of_returns nlp fuel segments Hshort) as [units Hunits].
  by eapply chunk_segments_total.
Qed.

End AssemblerRuns.

Lemma chunk_segments_never_splits_a_unit_witness :
  units_of (Some period_sents) 1 (preprocess_text sample_document)
  = Some sample_units
  /\ (exists chunks,
        chunk_segments char_encode char_decode (Some period_sents) 10 5 1
          (preprocess_text sample_document) = Ok chunks)
  /\ exists closed last,
      sample_chunks = emitted char_encode closed last
      /\ concat (map members (closed ++ [last])) = sample_units
      /\ well_chained char_encode char_decode 5 (closed ++ [last])
      /\ (forall i c, sample_chunks !! i = Some c ->
            exists r,
              (closed ++ [last]) !! i = Some r
              /\ members r <> []
              /\ text c = strip (carried r ++ concat (map piece (members r)))
              /\ token_count c
                 = carried_tokens r
                   + sum_list_with (unit_tokens char_encode) (members r))
      /\ (forall i r u, (closed ++ [last]) !! i = Some r -> u ∈ members r ->
            (10 < unit_tokens char_encode u -> exists rest, members r = u :: rest)
            /\ (u.2 <> [] -> strip u.2 = u.2 ->
                exists c a b,
                  sample_chunks !! i = Some c /\ text c = a ++ u.2 ++ b
                  /\ (10 < unit_tokens char_encode u -> 10 < token_count c))).
Proof.
  assert (Hunits : units_of (Some period_sents) 1 (preprocess_text sample_document)
                   = Some sample_units) by (vm_compute; reflexivity).
  destruct (chunk_segments_never_splits_a_unit char_encode char_decode
              (Some period_sents) 10 5 1 (preprocess_text sample_document)
              sample_units Hunits) as [Hreturns Hwhole].
  split; [exact Hunits|]. split.
  - apply Hreturns. intros s. by exists s.
  - apply Hwhole. vm_compute. reflexivity.
Defined.

Lemma token_count_is_sum_of_unit_counts_witness :
  units_of (Some period_sents) 1 (preprocess_text sample_document)
  = Some sample_units
  /\ chunk_segments char_encode char_decode (Some period_sents) 10 5 1
       (preprocess_text sample_document) = Ok sample_chunks
  /\ exists closed last,
      sample_chunks = emitted char_encode closed last
      /\ concat (map members (closed ++ [last])) = sample_units
      /\ forall i c, sample_chunks !! i = Some c ->
           exists r, (closed ++ [last]) !! i = Some r
             /\ members r <> []
             /\ text c = strip (run_text r)
             /\ token_count c
                = carried_tokens r
                  + sum_list_with (unit_tokens char_encode) (members r)
             /\ match i with
                | 0 => carried r = [] /\ carried_tokens r = 0
                | S j =>
                    exists prev,
                      (closed ++ [last]) !! j = Some prev
                      /\ match members r with
                         | (Code, _) :: _ =>
                             carried r = [] /\ carried_tokens r = 0
                         | (Text, _) :: _ =>
                             compute_overlap char_encode char_decode 5
                               (run_text prev) = Ok (carried r)
                             /\ carried_tokens r
                                = count char_encode (carried r)
                         | [] => False
                         end
                end.
Proof.
  assert (Hunits : units_of (Some period_sents) 1 (preprocess_text sample_document)
                   = Some sample_units) by (vm_compute; reflexivity).
  assert (Hrun : chunk_segments char_encode char_decode (Some period_sents) 10 5 1
                   (preprocess_text sample_document) = Ok sample_chunks)
    by (vm_compute; reflexivity).
  split; [exact Hunits|]. split; [exact Hrun|].
  exact (token_count_is_sum_of_unit_counts char_encode char_decode
           (Some period_sents) 10 5 1 (preprocess_text sample_document)
           sample_units sample_chunks Hunits Hrun).
Defined.

Lemma unit_appended_behind_one_separator_witness :
  units_of (Some period_sents) 1 (preprocess_text sample_document)
  = Some sample_units
  /\ chunk_segments char_encode char_decode (Some period_sents) 10 5 1
       (preprocess_text sample_document) = Ok sample_chunks
  /\ (forall st u st',
        unit_step char_encode char_decode 10 5 st u = Ok st' ->
        exists base,
          current_chunk st'
          = base ++ [match u.1 with Code => NEWLINE | Text => SPACE end] ++ u.2
          /\ (base = current_chunk st
              \/ match u.1 with
                 | Code => base = []
                 | Text => base = overlap_text st'
                 end))
  /\ exists closed last,
      sample_chunks = emitted char_encode closed last
      /\ concat (map members (closed ++ [last])) = sample_units
      /\ well_chained char_encode char_decode 5 (closed ++ [last])
      /\ forall i c, sample_chunks !! i = Some c ->
           exists r, (closed ++ [last]) !! i = Some r
             /\ text c
                = strip (carried r
                         ++ concat (map (fun u : segment_type * str =>
                                           (match u.1 with
                                            | Code => NEWLINE
                                            | Text => SPACE
                                            end) :: u.2)
                                        (members r)))
             /\ (carried r = [] ->
                 exists u rest,
                   members r = u :: rest
                   /\ text c
                      = strip (u.2
                               ++ concat (map (fun u : segment_type * str =>
                                                 (match u.1 with
                                                  | Code => NEWLINE
                                                  | Text => SPACE
                                                  end) :: u.2)
                                              rest))).
Proof.
  assert (Hunits : units_of (Some period_sents) 1 (preprocess_text sample_document)
                   = Some sample_units) by (vm_compute; reflexivity).
  assert (Hrun : chunk_segments char_encode char_decode (Some period_sents) 10 5 1
                   (preprocess_text sample_document) = Ok sample_chunks)
    by (vm_compute; reflexivity).
  split; [exact Hunits|]. split; [exact Hrun|].
  exact (unit_appended_behind_one_separator char_encode char_decode
           (Some period_sents) 10 5 1 (preprocess_text sample_document)
           sample_units sample_chunks Hunits Hrun).
Defined.

Lemma chunk_segments_at_most_one_chunk_per_unit_witness :
  units_of (Some period_sents) 1 (preprocess_text sample_document)
  = Some sample_units
  /\ chunk_segments char_encode char_decode (Some period_sents) 10 5 1
       (preprocess_text sample_document) = Ok sample_chunks
  /\ (exists closed last,
        sample_chunks = emitted char_encode closed last
        /\ concat (map members (closed ++ [last])) = sample_units
        /\ well_chained char_encode char_decode 5 (closed ++ [last])
        /\ forall i c, sample_chunks !! i = Some c ->
             exists r u rest,
               (closed ++ [last]) !! i = Some r
               /\ c = run_chunk char_encode r
               /\ members r = u :: rest)
  /\ length sample_chunks <= length sample_units.
Proof.
  assert (Hu : units_of (Some period_sents) 1 (preprocess_text sample_document)
               = Some sample_units) by (vm_compute; reflexivity).
  assert (Hr : chunk_segments char_encode char_decode (Some period_sents) 10 5 1
                 (preprocess_text sample_document) = Ok sample_chunks)
    by (vm_compute; reflexivity).
  split; [exact Hu|]. split; [exact Hr|].
  exact (chunk_segments_at_most_one_chunk_per_unit char_encode char_decode
           (Some period_sents) 10 5 1 (preprocess_text sample_document)
           sample_units sample_chunks Hu Hr).
Defined.

Lemma budget_of_chunks_with_several_units_witness :
  let units := [(Text, lit "Hi."); (Text, lit "Yo.")] in
  let chunks := [ {| text := lit "Hi. Yo."; token_count := 6 |} ] in
  units_of (Some period_sents) 1 (preprocess_text (lit "Hi. Yo.")) = Some units
  /\ chunk_segments char_encode char_decode (Some period_sents) 10 5 1
       (preprocess_text (lit "Hi. Yo.")) = Ok chunks
  /\ exists closed last,
      chunks = emitted char_encode closed last
      /\ concat (map members (closed ++ [last])) = units
      /\ well_chained char_encode char_decode 5 (closed ++ [last])
      /\ forall i c, chunks !! i = Some c ->
           exists r, (closed ++ [last]) !! i = Some r
             /\ c = run_chunk char_encode r
             /\ members r <> []
             /\ (2 <= length (members r) -> token_count c <= 10).
Proof.
  intros units chunks.
  assert (Hu : units_of (Some period_sents) 1 (preprocess_text (lit "Hi. Yo."))
               = Some units) by (vm_compute; reflexivity).
  assert (Hr : chunk_segments char_encode char_decode (Some period_sents) 10 5 1
                 (preprocess_text (lit "Hi. Yo.")) = Ok chunks)
    by (vm_compute; reflexivity).
  split; [exact Hu|]. split; [exact Hr|].
  exact (budget_of_chunks_with_several_units char_encode char_decode
           (Some period_sents) 10 5 1 (preprocess_text (lit "Hi. Yo."))
           units chunks Hu Hr).
Defined.

(** When the global [nlp] holds [None], the test of line 62 drops every
    prose segment: the result is that of the verbatim segments alone. *)
Lemma chunk_segments_none_model encode decode max_tokens overlap_tokens
    fuel (segments : list segment) :
  chunk_segments encode decode None max_tokens overlap_tokens fuel segments
  = chunk_segments encode decode None max_tokens overlap_tokens fuel
      (List.filter is_code segments).
Proof.
  unfold chunk_segments. f_equal. generalize initial_state.
  induction segments as [|[k seg] rest IH]; intros st; [reflexivity|].
  destruct k.
  - change (List.filter is_code ((Code, seg) :: rest))
      with ((Code, seg) :: List.filter is_code rest).
    cbn [segments_loop]. destruct (segment_step _ _ _ _ _ _ _ _); simpl; auto.
  - change (List.filter is_code ((Text, seg) :: rest))
      with (List.filter is_code rest).
    cbn [segments_loop]. simpl. apply IH.
Qed.

(** ** Chunk Writer: what is written, and where *)

Lemma digits_inj d d' : digits d = digits d' -> d = d'.
Proof.
  revert d'. induction d; destruct d'; simpl; intros H;
    try discriminate H; try reflexivity; injection H as H; f_equal; auto.
Qed.

Lemma decimal_inj n m : decimal n = decimal m -> n = m.
Proof.
  unfold decimal. intros H. apply digits_inj in H.
  by apply DecimalNat.Unsigned.to_uint_inj.
Qed.

(** Two chunks of a document never get the same file name. *)
Lemma chunk_filename_inj base i j :
  chunk_filename base i = chunk_filename base j -> i = j.
Proof.
  unfold chunk_filename. intros H.
  apply app_inv_head in H. apply app_inv_head in H.
  apply app_inv_tail in H. apply decimal_inj in H. lia.
Qed.

Section WriterFiles.

Context (encode : str -> option (list N)) (decode : list N -> str).
Context (nlp : option (str -> list str)).
Context (path_join : str -> str -> str) (base_filename_of : str -> str).
Context (writable creatable : str -> bool).

Local Abbreviation write_chunks := (write_chunks path_join writable).
Local Abbreviation segment_opened_file :=
  (segment_opened_file encode decode nlp path_join base_filename_of writable).
Local Abbreviation segment_text_file :=
  (segment_text_file encode decode nlp path_join base_filename_of
                     writable creatable).

Lemma write_chunks_changes chunks :
  forall fs log output_dir base i0 fs1 log1 raised,
    write_chunks fs log output_dir base i0 chunks = (fs1, log1, raised) ->
    forall path, files fs1 !! path <> files fs !! path ->
      files fs !! path = None
      /\ exists k c,
          chunks !! k = Some c
          /\ path = path_join output_dir (chunk_filename base (i0 + k))
          /\ files fs1 !! path = Some (text c).
Proof.
  induction chunks as [|c rest IH]; intros fs log output_dir base i0 fs1 log1 raised.
  - intros [= <- _ _] path Hne. done.
  - cbn [Writer.write_chunks].
    set (name := chunk_filename base i0).
    set (chunk_path := path_join output_dir name).
    destruct (path_exists fs chunk_path) eqn:Ex.
    + intros Hrest path Hne.
      destruct (IH _ _ _ _ _ _ _ _ Hrest path Hne) as (Hnone & k & c' & Hk & Hp & Hf).
      split; [exact Hnone|]. exists (S k), c'. split; [exact Hk|].
      split; [|exact Hf]. rewrite Hp. do 2 f_equal. lia.
    + destruct (writable chunk_path) eqn:Ew; [|by intros [= <- _ _] path Hne].
      intros Hrest path Hne.
      destruct (write_chunks_mono _ _ _ _ _ _ _ _ _ _ _ Hrest) as [Hf _].
      simpl in Hf.
      destruct (decide (path = chunk_path)) as [->|Hp].
      * split; [by apply path_exists_false|]. exists 0, c.
        split; [reflexivity|]. split; [by rewrite Nat.add_0_r|].
        eapply lookup_weaken; [|exact Hf]. apply lookup_insert_eq.
      * assert (Hne' : files fs1 !! path
                       <> files {| files := <[chunk_path:=text c]> (files fs);
                                  dirs := dirs fs |} !! path).
        { simpl. by rewrite lookup_insert_ne. }
        destruct (IH _ _ _ _ _ _ _ _ Hrest path Hne')
          as (Hnone & k & c' & Hk & Hpath & Hfile).
        simpl in Hnone. rewrite lookup_insert_ne in Hnone by done.
        split; [exact Hnone|]. exists (S k), c'. split; [exact Hk|].
        split; [|exact Hfile]. rewrite Hpath. do 2 f_equal. lia.
Qed.

(** The only files a call changes are chunk files of the document: a file
    whose content differs after the call did not exist before it, is
    named after the document and the rank of one of its chunks, and
    holds the text of that chunk. *)
Theorem segment_text_file_writes_only_chunks
    fuel fs input_path output_dir fs1 log path :
  segment_text_file fuel fs input_path output_dir = Some (fs1, log) ->
  files fs1 !! path <> files fs !! path ->
  files fs !! path = None
  /\ exists body chunks k c,
      files fs !! input_path = Some body
      /\ chunk_segments encode decode nlp 3000 200 fuel (preprocess_text body)
         = Ok chunks
      /\ chunks !! k = Some c
      /\ path = path_join output_dir
                  (chunk_filename (base_filename_of input_path) k)
      /\ files fs1 !! path = Some (text c).
Proof.
  unfold Writer.segment_text_file.
  assert (Hopened : forall fs0 log0,
             files fs0 = files fs ->
             segment_opened_file fuel fs0 log0 input_path output_dir
               = Some (fs1, log) ->
             files fs1 !! path <> files fs !! path ->
             files fs !! path = None
             /\ exists body chunks k c,
                 files fs !! input_path = Some body
                 /\ chunk_segments encode decode nlp 3000 200 fuel
                      (preprocess_text body) = Ok chunks
                 /\ chunks !! k = Some c
                 /\ path = path_join output_dir
                       (chunk_filename (base_filename_of input_path) k)
                 /\ files fs1 !! path = Some (text c)).
  { intros fs0 log0 Hfiles. unfold Writer.segment_opened_file. rewrite Hfiles.
    destruct (files fs !! input_path) as [body|] eqn:Ein.
    - destruct (chunk_segments encode decode nlp 3000 200 fuel
                  (preprocess_text body)) as [chunks|e|] eqn:Ech;
        [| |discriminate].
      + destruct (Writer.write_chunks path_join writable fs0 _ output_dir
                    (base_filename_of input_path) 0 chunks)
          as [[fs' log'] raised] eqn:Ew.
        intros Hres Hne.
        assert (fs' = fs1) as ->.
        { destruct raised; [|destruct chunks]; by injection Hres as <- _. }
        rewrite <- Hfiles in Hne.
        destruct (write_chunks_changes _ _ _ _ _ _ _ _ _ Ew path Hne)
          as (Hnone & k & c & Hk & Hp & Hf).
        rewrite Hfiles in Hnone. split; [exact Hnone|].
        exists body, chunks, k, c. auto.
      + intros [= <- _] Hne. by rewrite Hfiles in Hne.
    - destruct (bool_decide _); intros [= <- _] Hne; by rewrite Hfiles in Hne. }
  destruct (path_exists fs output_dir); [by apply Hopened|].
  destruct (creatable output_dir); [by apply Hopened|].
  by intros [= <- _] Hne.
Qed.

Lemma write_chunks_fresh chunks : forall fs log output_dir base i0,
  (forall a b, path_join output_dir a = path_join output_dir b -> a = b) ->
  (forall k, k < length chunks ->
     path_exists fs (path_join output_dir (chunk_filename base (i0 + k))) = false
     /\ writable (path_join output_dir (chunk_filename base (i0 + k))) = true) ->
  exists fs1 log1,
    write_chunks fs log output_dir base i0 chunks = (fs1, log1, false)
    /\ forall k c, chunks !! k = Some c ->
         files fs1 !! path_join output_dir (chunk_filename base (i0 + k))
         = Some (text c).
Proof.
  induction chunks as [|c rest IH]; intros fs log output_dir base i0 Hinj Hfresh.
  - exists fs, log. split; [reflexivity|]. intros k c Hk. by rewrite lookup_nil in Hk.
  - cbn [Writer.write_chunks].
    destruct (Hfresh 0 ltac:(simpl; lia)) as [Hex Hw].
    rewrite Nat.add_0_r in Hex, Hw. rewrite Hex, Hw.
    set (chunk_path := path_join output_dir (chunk_filename base i0)) in *.
    set (fs' := {| files := <[chunk_path:=text c]> (files fs); dirs := dirs fs |}).
    destruct (IH fs' (log ++ [CreatedChunk (chunk_filename base i0) (token_count c)])
                output_dir base (S i0) Hinj) as (fs1 & log1 & Hrun & Hstored).
    { intros k Hk. destruct (Hfresh (S k) ltac:(simpl; lia)) as [Hex' Hw'].
      replace (i0 + S k) with (S i0 + k) in Hex', Hw' by lia.
      split; [|exact Hw'].
      destruct (path_exists fs' _) eqn:E; [|reflexivity].
      apply (proj1 (path_exists_spec _ _)) in E. subst fs'. simpl in E.
      assert (Hp : chunk_path
                   <> path_join output_dir (chunk_filename base (S i0 + k))).
      { intros Heq. apply Hinj, chunk_filename_inj in Heq. lia. }
      rewrite lookup_insert_ne in E by exact Hp.
      apply (proj2 (path_exists_spec _ _)) in E.
      change (S i0 + k) with (S (i0 + k)) in Hex'. congruence. }
    exists fs1, log1. split; [exact Hrun|].
    intros [|k] c' Hk.
    + injection Hk as <-. rewrite Nat.add_0_r.
      destruct (write_chunks_mono _ _ _ _ _ _ _ _ _ _ _ Hrun) as [Hf _].
      eapply lookup_weaken; [|exact Hf]. apply lookup_insert_eq.
    + replace (i0 + S k) with (S i0 + k) by lia. by apply Hstored.
Qed.

(** Into an output directory that exists and holds none of the chunk
    files yet, every chunk is written: chunk [k] is then the content of
    the file named after the document and [k + 1]. The directory must
    give different paths to different names, and the files must be
    writable. *)
Theorem segment_text_file_stores_chunks
    fuel fs input_path output_dir body chunks :
  files fs !! input_path = Some body ->
  chunk_segments encode decode nlp 3000 200 fuel (preprocess_text body)
  = Ok chunks ->
  path_exists fs output_dir = true ->
  (forall a b, path_join output_dir a = path_join output_dir b -> a = b) ->
  (forall k, k < length chunks ->
     let path := path_join output_dir
                   (chunk_filename (base_filename_of input_path) k) in
     path_exists fs path = false /\ writable path = true) ->
  exists fs1 log,
    segment_text_file fuel fs input_path output_dir = Some (fs1, log)
    /\ forall k c, chunks !! k = Some c ->
         files fs1 !! path_join output_dir
                        (chunk_filename (base_filename_of input_path) k)
         = Some (text c).
Proof.
  intros Hbody Hrun Hdir Hinj Hfresh.
  unfold Writer.segment_text_file, Writer.segment_opened_file.
  rewrite Hdir, Hbody, Hrun.
  destruct (write_chunks_fresh chunks fs
              (([] ++ [StartingSegmentation input_path])
                 ++ [TotalChunks (length chunks) input_path])
              output_dir (base_filename_of input_path) 0 Hinj Hfresh)
    as (fs1 & log1 & Hw & Hstored).
  rewrite Hw. destruct chunks; eexists _, _; (split; [reflexivity|exact Hstored]).
Qed.


End WriterFiles.

(** ** The properties above on the sample documents *)

Lemma pipeline_units_trimmed_witness :
  units_of (Some period_sents) 1 (preprocess_text sample_document)
  = Some sample_units
  /\ Forall (fun u : segment_type * str => strip u.2 = u.2) sample_units.
Proof.
  assert (H : units_of (Some period_sents) 1 (preprocess_text sample_document)
              = Some sample_units) by (vm_compute; reflexivity).
  split; [exact H|].
  exact (pipeline_units_trimmed (Some period_sents) 1 sample_document
           sample_units H).
Defined.

Lemma chunk_segments_texts_trimmed_witness :
  chunk_segments char_encode char_decode (Some period_sents) 10 5 1
    (preprocess_text sample_document) = Ok sample_chunks
  /\ Forall (fun c => strip (text c) = text c) sample_chunks.
Proof.
  assert (H : chunk_segments char_encode char_decode (Some period_sents) 10 5 1
                (preprocess_text sample_document) = Ok sample_chunks)
    by (vm_compute; reflexivity).
  split; [exact H|].
  exact (chunk_segments_texts_trimmed char_encode char_decode
           (Some period_sents) 10 5 1 (preprocess_text sample_document)
           sample_chunks H).
Defined.

Lemma chunk_segments_overlap_chain_witness :
  units_of (Some period_sents) 1 (preprocess_text sample_document)
  = Some sample_units
  /\ chunk_segments char_encode char_decode (Some period_sents) 10 5 1
       (preprocess_text sample_document) = Ok sample_chunks
  /\ exists runs : list run,
      concat (map members runs) = sample_units
      /\ (forall i c, sample_chunks !! i = Some c ->
            exists r, runs !! i = Some r /\ text c = strip (run_text r))
      /\ (forall r, runs !! 0 = Some r -> carried r = [])
      /\ forall i r r', runs !! i = Some r -> runs !! S i = Some r' ->
           match members r' with
           | (Code, _) :: _ => carried r' = []
           | (Text, _) :: _ =>
               compute_overlap char_encode char_decode 5 (run_text r)
               = Ok (carried r')
           | [] => False
           end.
Proof.
  assert (Hu : units_of (Some period_sents) 1 (preprocess_text sample_document)
               = Some sample_units) by (vm_compute; reflexivity).
  assert (Hr : chunk_segments char_encode char_decode (Some period_sents) 10 5 1
                 (preprocess_text sample_document) = Ok sample_chunks)
    by (vm_compute; reflexivity).
  split; [exact Hu|]. split; [exact Hr|].
  exact (chunk_segments_overlap_chain char_encode char_decode
           (Some period_sents) 10 5 1 (preprocess_text sample_document)
           sample_units sample_chunks Hu Hr).
Defined.

Lemma chunk_segments_budget_with_overlap_witness :
  char_encode [] = Some []
  /\ (forall ids, count char_encode (char_decode ids) <= length ids)
  /\ units_of (Some period_sents) 1 (preprocess_text sample_document)
     = Some sample_units
  /\ chunk_segments char_encode char_decode (Some period_sents) 10 5 1
       (preprocess_text sample_document) = Ok sample_chunks
  /\ exists runs : list run,
      concat (map members runs) = sample_units
      /\ forall i c, sample_chunks !! i = Some c ->
           exists r, runs !! i = Some r
             /\ c = run_chunk char_encode r
             /\ (Forall (fun u => unit_tokens char_encode u <= 10) (members r) ->
                 token_count c <= 10 + 5).
Proof.
  assert (H0 : char_encode [] = Some []) by reflexivity.
  assert (H1 : forall ids, count char_encode (char_decode ids) <= length ids)
    by (intros ids; unfold count, char_encode, char_decode; lia).
  assert (Hu : units_of (Some period_sents) 1 (preprocess_text sample_document)
               = Some sample_units) by (vm_compute; reflexivity).
  assert (Hr : chunk_segments char_encode char_decode (Some period_sents) 10 5 1
                 (preprocess_text sample_document) = Ok sample_chunks)
    by (vm_compute; reflexivity).
  repeat (split; [assumption|]).
  exact (chunk_segments_budget_with_overlap char_encode char_decode
           (Some period_sents) 10 5 1 (preprocess_text sample_document)
           sample_units sample_chunks H0 H1 Hu Hr).
Defined.

Lemma chunk_segments_budget_without_overlap_witness :
  let units := [(Text, lit "aaaaaaa."); (Text, lit "bbbbbbb.")] in
  let chunks := [ {| text := lit "aaaaaaa."; token_count := 8 |};
                  {| text := lit "bbbbbbb."; token_count := 8 |} ] in
  0 = 0
  /\ char_encode [] = Some []
  /\ units_of (Some period_sents) 1 (preprocess_text (lit "aaaaaaa. bbbbbbb."))
     = Some units
  /\ chunk_segments char_encode char_decode (Some period_sents) 10 0 1
       (preprocess_text (lit "aaaaaaa. bbbbbbb.")) = Ok chunks
  /\ exists runs : list run,
      concat (map members runs) = units
      /\ forall i c, chunks !! i = Some c ->
           exists r, runs !! i = Some r
             /\ c = run_chunk char_encode r
             /\ (Forall (fun u => unit_tokens char_encode u <= 10) (members r) ->
                 token_count c <= 10).
Proof.
  intros units chunks.
  assert (H0 : char_encode [] = Some []) by reflexivity.
  assert (Hu : units_of (Some period_sents) 1
                 (preprocess_text (lit "aaaaaaa. bbbbbbb.")) = Some units)
    by (vm_compute; reflexivity).
  assert (Hr : chunk_segments char_encode char_decode (Some period_sents) 10 0 1
                 (preprocess_text (lit "aaaaaaa. bbbbbbb.")) = Ok chunks)
    by (vm_compute; reflexivity).
  split; [reflexivity|]. repeat (split; [assumption|]).
  exact (chunk_segments_budget_without_overlap char_encode char_decode
           (Some period_sents) 10 0 1 (preprocess_text (lit "aaaaaaa. bbbbbbb."))
           units chunks eq_refl H0 Hu Hr).
Defined.

Lemma chunk_segments_single_chunk_witness :
  let units := [(Text, lit "Hi."); (Text, lit "Yo.")] in
  let chunks := [ {| text := lit "Hi. Yo."; token_count := 6 |} ] in
  units_of (Some period_sents) 1 (preprocess_text (lit "Hi. Yo.")) = Some units
  /\ chunk_segments char_encode char_decode (Some period_sents) 10 5 1
       (preprocess_text (lit "Hi. Yo.")) = Ok chunks
  /\ sum_list_with (unit_tokens char_encode) units <= 10
  /\ chunks =
     if nonempty (strip (concat (map piece units)))
     then [ {| text := strip (concat (map piece units));
               token_count := sum_list_with (unit_tokens char_encode) units |} ]
     else [].
Proof.
  intros units chunks.
  assert (Hu : units_of (Some period_sents) 1 (preprocess_text (lit "Hi. Yo."))
               = Some units) by (vm_compute; reflexivity).
  assert (Hr : chunk_segments char_encode char_decode (Some period_sents) 10 5 1
                 (preprocess_text (lit "Hi. Yo.")) = Ok chunks)
    by (vm_compute; reflexivity).
  assert (Hs : sum_list_with (unit_tokens char_encode) units <= 10)
    by (vm_compute; lia).
  repeat (split; [assumption|]).
  exact (chunk_segments_single_chunk char_encode char_decode
           (Some period_sents) 10 5 1 (preprocess_text (lit "Hi. Yo."))
           units chunks Hu Hr Hs).
Defined.

Lemma chunk_segments_returns_witness :
  (forall s, is_Some (char_encode s))
  /\ Forall (fun seg : segment => length seg.2 <= default_max_length)
            (preprocess_text sample_document)
  /\ exists chunks,
      chunk_segments char_encode char_decode (Some period_sents) 10 5 1
        (preprocess_text sample_document) = Ok chunks.
Proof.
  assert (H1 : forall s, is_Some (char_encode s)) by (intros s; by exists s).
  assert (H2 : Forall (fun seg : segment => length seg.2 <= default_max_length)
                      (preprocess_text sample_document)).
  { change (preprocess_text sample_document)
      with [(Text, lit "Hi. "); (Code, lit "```0123456789ab```");
            (Text, lit " Yo.")].
    assert (Hbig : 100 <= default_max_length)
      by (unfold default_max_length; lia).
    repeat (apply Forall_cons_2;
            [etransitivity; [|exact Hbig]; vm_compute; lia|]).
    apply Forall_nil_2. }
  split; [exact H1|]. split; [exact H2|].
  exact (chunk_segments_returns char_encode char_decode (Some period_sents)
           10 5 0 (preprocess_text sample_document) H1 H2).
Defined.

Lemma segment_text_file_writes_only_chunks_witness :
  let run := segment_text_file char_encode char_decode (Some period_sents)
               slash_join stem (fun _ => true) (fun _ => true) 1 in
  let fs1 :=
    {| files := {[ lit "in/doc.txt" := lit "One. Two.```x``` Three.";
                   lit "out/doc_chunk_1.txt" :=
                     lit "One. Two." ++ NEWLINE :: lit "```x``` Three." ]};
       dirs := {[ lit "out"; lit "in" ]} |} in
  let log1 := [ CreatedDirectory (lit "out");
                StartingSegmentation (lit "in/doc.txt");
                TotalChunks 1 (lit "in/doc.txt");
                CreatedChunk (lit "doc_chunk_1.txt") 21;
                NoChunksWarning (lit "in/doc.txt") ] in
  let path := lit "out/doc_chunk_1.txt" in
  run sample_fs (lit "in/doc.txt") (lit "out") = Some (fs1, log1)
  /\ files fs1 !! path <> files sample_fs !! path
  /\ files sample_fs !! path = None
  /\ exists body chunks k c,
      files sample_fs !! lit "in/doc.txt" = Some body
      /\ chunk_segments char_encode char_decode (Some period_sents) 3000 200 1
           (preprocess_text body) = Ok chunks
      /\ chunks !! k = Some c
      /\ path = slash_join (lit "out") (chunk_filename (stem (lit "in/doc.txt")) k)
      /\ files fs1 !! path = Some (text c).
Proof.
  intros run fs1 log1 path.
  assert (H1 : run sample_fs (lit "in/doc.txt") (lit "out") = Some (fs1, log1))
    by (vm_compute; reflexivity).
  assert (H2 : files fs1 !! path <> files sample_fs !! path)
    by (vm_compute; discriminate).
  split; [exact H1|]. split; [exact H2|].
  exact (segment_text_file_writes_only_chunks char_encode char_decode
           (Some period_sents) slash_join stem (fun _ => true) (fun _ => true)
           1 sample_fs (lit "in/doc.txt") (lit "out") fs1 log1 path H1 H2).
Defined.

Lemma segment_text_file_stores_chunks_witness :
  let fs := {| files := files sample_fs; dirs := {[ lit "out"; lit "in" ]} |} in
  let body := lit "One. Two.```x``` Three." in
  let chunks :=
    [ {| text := lit "One. Two." ++ NEWLINE :: lit "```x``` Three.";
         token_count := 21 |} ] in
  files fs !! lit "in/doc.txt" = Some body
  /\ chunk_segments char_encode char_decode (Some period_sents) 3000 200 1
       (preprocess_text body) = Ok chunks
  /\ path_exists fs (lit "out") = true
  /\ (forall a b, slash_join (lit "out") a = slash_join (lit "out") b -> a = b)
  /\ (forall k, k < length chunks ->
        let path := slash_join (lit "out")
                      (chunk_filename (stem (lit "in/doc.txt")) k) in
        path_exists fs path = false /\ (fun _ : str => true) path = true)
  /\ exists fs1 log,
      segment_text_file char_encode char_decode (Some period_sents)
        slash_join stem (fun _ => true) (fun _ => true) 1
        fs (lit "in/doc.txt") (lit "out") = Some (fs1, log)
      /\ forall k c, chunks !! k = Some c ->
           files fs1 !! slash_join (lit "out")
                          (chunk_filename (stem (lit "in/doc.txt")) k)
           = Some (text c).
Proof.
  intros fs body chunks.
  assert (H1 : files fs !! lit "in/doc.txt" = Some body)
    by (vm_compute; reflexivity).
  assert (H2 : chunk_segments char_encode char_decode (Some period_sents)
                 3000 200 1 (preprocess_text body) = Ok chunks)
    by (vm_compute; reflexivity).
  assert (H3 : path_exists fs (lit "out") = true) by (vm_compute; reflexivity).
  assert (H4 : forall a b,
             slash_join (lit "out") a = slash_join (lit "out") b -> a = b).
  { intros a b H. unfold slash_join in H.
    apply app_inv_head in H. by apply app_inv_head in H. }
  assert (H5 : forall k, k < length chunks ->
             let path := slash_join (lit "out")
                           (chunk_filename (stem (lit "in/doc.txt")) k) in
             path_exists fs path = false /\ (fun _ : str => true) path = true).
  { intros k Hk. simpl in Hk. destruct k as [|k]; [|lia].
    split; [vm_compute; reflexivity|reflexivity]. }
  repeat (split; [assumption|]).
  exact (segment_text_file_stores_chunks char_encode char_decode
           (Some period_sents) slash_join stem (fun _ => true) (fun _ => true)
           1 fs (lit "in/doc.txt") (lit "out") body chunks H1 H2 H3 H4 H5).
Defined.

